(** * LudyEnglish vocabulary trainer: session engine

    Shallow embedding of the trainer component [LudyEnglishApp] and proofs of
    the properties its specification states: the record normaliser, the
    random utilities, the multiple-choice option set and the scoring state
    machine.

    The repository holds the component twice.  [src/ludyenglish/src/App.tsx]
    scores and advances in one handler.  The other source adds toasts,
    answer feedback, keyboard shortcuts and the remote best streak: it scores
    at once, advances from a timeout, and locks the multiple-choice buttons
    in between.  [normalizeRow], [pickN], [shuffle], [qcmOptions], the two
    percentages and the scoring statements of [nextCard] are the same text in
    both; the handlers that differ are embedded once per source, in the
    modules [Trainer] and [LudyEnglish]. *)

From Stdlib Require Import ZArith Lia Ascii String.
From stdpp Require Import gmap strings list fin_maps.

(** ** JavaScript strings

    A string is a sequence of code units, here [string].  [trim] and the two
    case mappings are written out for the ASCII range: the six ASCII white
    space characters are stripped and the 26 letters are mapped.  Code units
    outside ASCII are kept as they are (JavaScript also strips a few
    non-ASCII blanks and maps non-ASCII letters; none of them is mapped to a
    string of ASCII letters that spells a header name). *)

Definition is_ws (c : ascii) : bool :=
  let n := nat_of_ascii c in
  (n =? 9) || (n =? 10) || (n =? 11) || (n =? 12) || (n =? 13) || (n =? 32).

Definition upper_char (c : ascii) : ascii :=
  let n := nat_of_ascii c in
  if (97 <=? n) && (n <=? 122) then ascii_of_nat (n - 32) else c.

Definition lower_char (c : ascii) : ascii :=
  let n := nat_of_ascii c in
  if (65 <=? n) && (n <=? 90) then ascii_of_nat (n + 32) else c.

Fixpoint map_chars (f : ascii -> ascii) (s : string) : string :=
  match s with
  | EmptyString => EmptyString
  | String c r => String (f c) (map_chars f r)
  end.

Definition toUpperCase : string -> string := map_chars upper_char.
Definition toLowerCase : string -> string := map_chars lower_char.

Fixpoint trimStart (s : string) : string :=
  match s with
  | EmptyString => EmptyString
  | String c r => if is_ws c then trimStart r else s
  end.

Fixpoint trimEnd (s : string) : string :=
  match s with
  | EmptyString => EmptyString
  | String c r =>
      match trimEnd r with
      | EmptyString => if is_ws c then EmptyString else String c EmptyString
      | r' => String c r'
      end
  end.

Definition trim (s : string) : string := trimEnd (trimStart s).

(** [!s] on a string: only the empty string is falsy. *)
Definition falsy (s : string) : bool :=
  match s with EmptyString => true | _ => false end.

(** ** Types *)

(** [type Vocab = { EN: string; FR: string; EG?: string }] *)
Record Vocab := mkVocab { EN : string; FR : string; EG : option string }.

Inductive Mode := flashcards | qcm | writing.
Inductive Direction := FR_EN | EN_FR.

#[global] Instance Vocab_eq_dec : EqDecision Vocab.
Proof. solve_decision. Defined.
#[global] Instance Mode_eq_dec : EqDecision Mode.
Proof. solve_decision. Defined.
#[global] Instance Direction_eq_dec : EqDecision Direction.
Proof. solve_decision. Defined.

(** [direction === "FR→EN" ? v.EN : v.FR], the field the learner must give. *)
Definition target (d : Direction) (v : Vocab) : string :=
  match d with FR_EN => EN v | EN_FR => FR v end.

(** ** normalizeRow

    A raw record is an object produced by the CSV decoder: its own keys in
    [Object.keys] order, each with a string value.  [None] is a missing row
    ([null] or [undefined]). *)
Abbreviation RawRow := (list (string * string)).

(** The [reduce] over [Object.keys(row)]: later keys overwrite earlier ones
    that normalise to the same header. *)
Definition normalizedKeys (row : RawRow) : gmap string string :=
  foldl (fun acc kv => <[toUpperCase (trim kv.1) := kv.2]> acc) ∅ row.

(** [(keys[name] || "").toString().trim()] *)
Definition field (keys : gmap string string) (name : string) : string :=
  trim (match keys !! name with
        | Some v => if falsy v then "" else v
        | None => ""
        end).

Definition normalizeRow (row : option RawRow) : option Vocab :=
  match row with
  | None => None
  | Some r =>
      let keys := normalizedKeys r in
      let en := field keys "EN" in
      let fr := field keys "FR" in
      let eg := field keys "EG" in
      if falsy en && falsy fr then None
      else Some {| EN := en; FR := fr; EG := Some eg |}
  end.


(** ** Math.random

    [Math.random()] returns a number in the half-open interval from 0 to 1.
    A value of the interval is kept as the fraction
    [r_num / (r_num + r_gap + 1)], which is below 1 whatever the two fields
    are.  The generator is the sequence of the results still to come. *)
Record Unit01 := mkUnit01 { r_num : nat; r_gap : nat }.

Abbreviation Rng := (nat -> Unit01).

Definition random (g : Rng) : Unit01 * Rng := (g 0, fun k => g (S k)).

(** [Math.floor(u * n)] *)
Definition floorMul (u : Unit01) (n : nat) : nat :=
  (r_num u * n) `div` (r_num u + r_gap u + 1).

(** ** Arrays by value

    [swap i j b] is the destructuring assignment
    [[b[i], b[j]] = [b[j], b[i]]].  Both reads are in range wherever the
    sources perform it ([swap_in_loop_range] below); outside the array
    JavaScript would store [undefined], which a [list T] cannot hold, and
    the model leaves the array as it is. *)
Definition swap {T} (i j : nat) (b : list T) : list T :=
  match b !! i, b !! j with
  | Some x, Some y => <[j := x]> (<[i := y]> b)
  | _, _ => b
  end.

(** The loop shared by [shuffle] and [pickN]:
    [for (let i = b.length - 1; i > 0; i--) { j = floor(random() * (i + 1)); swap }].
    The first argument is the loop counter. *)
Fixpoint fisherYates {T} (i : nat) (b : list T) (g : Rng) : list T * Rng :=
  match i with
  | 0 => (b, g)
  | S i' =>
      let (u, g') := random g in
      let j := floorMul u (i + 1) in
      fisherYates i' (swap i j b) g'
  end.

(** [shuffle(a)] by value: the contents of the array it returns. *)
Definition shuffle {T} (a : list T) (g : Rng) : list T * Rng :=
  fisherYates (length a - 1) a g.

(** [l.slice(0, e)]: a negative end counts from the end of the array. *)
Definition slice0 {T} (e : Z) (l : list T) : list T :=
  take (Z.to_nat (if (e <? 0)%Z then (Z.of_nat (length l) + e)%Z else e)) l.

(** [Array.from({ length: n }, (_, i) => i).filter((i) => i !== avoidIndex)];
    [avoidIndex] is a number or [undefined] ([None]). *)
Definition candidateIndices (n : nat) (avoidIndex : option Z) : list nat :=
  filter (fun i => Some (Z.of_nat i) ≠ avoidIndex) (seq 0 n).

(** [pickN(arr, n, avoidIndex)] by value.  The final [map((i) => arr[i])]
    reads inside the array for every index kept ([pickN_indices]), so that
    no read is dropped by [omap]. *)
Definition pickN {T} (arr : list T) (n : Z) (avoidIndex : option Z) (g : Rng)
  : list T * Rng :=
  let idxs := candidateIndices (length arr) avoidIndex in
  let (idxs', g') := fisherYates (length idxs - 1) idxs g in
  (omap (fun i => arr !! i) (slice0 (Z.min n (Z.of_nat (length idxs'))) idxs'), g').

(** The number of indices [pickN] draws from: all of them, less the avoided
    one when [avoidIndex] is an index of the array. *)
Definition eligible (len : nat) (avoidIndex : option Z) : nat :=
  match avoidIndex with
  | Some z => if bool_decide (0 <= z < Z.of_nat len)%Z then len - 1 else len
  | None => len
  end.

(** ** Arrays by reference

    The same two functions over a store of arrays, to account for which
    array each statement writes to. *)
Module Heap.
Section heap.
Context {T : Type}.

Abbreviation loc := positive.
Abbreviation store := (gmap loc (list T)).

Definition alloc (xs : list T) (h : store) : loc * store :=
  let l := fresh (dom h) in (l, <[l := xs]> h).

(** [[b[i], b[j]] = [b[j], b[i]]] on the array at [b]. *)
Definition swapAt (b : loc) (i j : nat) (h : store) : store :=
  match h !! b with
  | Some xs => <[b := swap i j xs]> h
  | None => h
  end.

Fixpoint loop (i : nat) (b : loc) (h : store) (g : Rng) : store * Rng :=
  match i with
  | 0 => (h, g)
  | S i' =>
      let (u, g') := random g in
      let j := floorMul u (i + 1) in
      loop i' b (swapAt b i j h) g'
  end.

(** [const b = [...a]; for (...) {...}; return b;] *)
Definition shuffle (a : loc) (h : store) (g : Rng) : option (loc * store * Rng) :=
  xs ← h !! a;
  let (b, h1) := alloc xs h in
  let (h2, g') := loop (length xs - 1) b h1 g in
  Some (b, h2, g').

(** [idxs] is a local array of numbers; [arr] is only read, and the
    result of [slice(...).map(...)] is a new array. *)
Definition pickN (arr : loc) (n : Z) (avoidIndex : option Z) (h : store) (g : Rng)
  : option (loc * store * Rng) :=
  xs ← h !! arr;
  let (picked, g') := pickN xs n avoidIndex g in
  let (r, h') := alloc picked h in
  Some (r, h', g').
End heap.
End Heap.

(** ** The multiple-choice option set *)

(** [pool.indexOf(x)]: the first index holding [x], or -1. *)
Fixpoint indexOfFrom (x : string) (pool : list string) (i : nat) : Z :=
  match pool with
  | [] => (-1)%Z
  | y :: rest => if decide (y = x) then Z.of_nat i else indexOfFrom x rest (S i)
  end.

Definition indexOf (x : string) (pool : list string) : Z := indexOfFrom x pool 0.

(** The [useMemo] body of [qcmOptions]. *)
Definition qcmOptions (current : option Vocab) (list_ : list Vocab) (d : Direction)
    (g : Rng) : list string * Rng :=
  match current with
  | None => ([], g)
  | Some cur =>
      if length list_ =? 0 then ([], g)
      else
        let correct := target d cur in
        let pool := map (target d) list_ in
        let (distractors, g1) := pickN pool 3 (Some (indexOf correct pool)) g in
        shuffle (correct :: distractors) g1
  end.

(** ** Component state

    One field per [useState] cell of [LudyEnglishApp] that the trainer logic
    reads or writes, the memoised [list] ([list_]), the pending [setTimeout]
    callbacks of [nextCard], the generator behind [Math.random] and the
    allocator of array identities. *)

(** An array held in a state cell: [useMemo] compares its dependencies by
    identity, so the identity is kept next to the contents.  State arrays
    are never written in place. *)
Record Arr := mkArr { ref : nat; items : list Vocab }.

Record Score := mkScore { good : nat; total : nat }.

(** What the callback passed to [setTimeout] has captured: whether [mode]
    was ["qcm"] and [list.length]. *)
Record Timer := mkTimer { t_qcm : bool; t_len : nat }.

Record State := mkState {
  rows : Arr;
  trainingRows : Arr;
  wrongRows : Arr;
  lastAnswerCorrect : option bool;
  selectedQcmOption : option string;
  qcmAnswered : bool;
  mode : Mode;
  direction : Direction;
  index : nat;
  showBack : bool;
  answer : string;
  score : Score;
  currentStreak : nat;
  bestStreak : nat;
  shuffleOn : bool;
  list_ : list Vocab;
  timers : list Timer;
  rng : Rng;
  nextRef : nat
}.

(** The state setters.  An updater function [setX((x) => f(x))] is the setter
    applied to [f] of the field. *)
Definition setRows (v : Arr) (s : State) : State :=
  {| rows := v; trainingRows := trainingRows s; wrongRows := wrongRows s;
     lastAnswerCorrect := lastAnswerCorrect s;
     selectedQcmOption := selectedQcmOption s; qcmAnswered := qcmAnswered s;
     mode := mode s; direction := direction s; index := index s;
     showBack := showBack s; answer := answer s; score := score s;
     currentStreak := currentStreak s; bestStreak := bestStreak s;
     shuffleOn := shuffleOn s; list_ := list_ s; timers := timers s;
     rng := rng s; nextRef := nextRef s |}.
Definition setTrainingRows (v : Arr) (s : State) : State :=
  {| rows := rows s; trainingRows := v; wrongRows := wrongRows s;
     lastAnswerCorrect := lastAnswerCorrect s;
     selectedQcmOption := selectedQcmOption s; qcmAnswered := qcmAnswered s;
     mode := mode s; direction := direction s; index := index s;
     showBack := showBack s; answer := answer s; score := score s;
     currentStreak := currentStreak s; bestStreak := bestStreak s;
     shuffleOn := shuffleOn s; list_ := list_ s; timers := timers s;
     rng := rng s; nextRef := nextRef s |}.
Definition setWrongRows (v : Arr) (s : State) : State :=
  {| rows := rows s; trainingRows := trainingRows s; wrongRows := v;
     lastAnswerCorrect := lastAnswerCorrect s;
     selectedQcmOption := selectedQcmOption s; qcmAnswered := qcmAnswered s;
     mode := mode s; direction := direction s; index := index s;
     showBack := showBack s; answer := answer s; score := score s;
     currentStreak := currentStreak s; bestStreak := bestStreak s;
     shuffleOn := shuffleOn s; list_ := list_ s; timers := timers s;
     rng := rng s; nextRef := nextRef s |}.
Definition setLastAnswerCorrect (v : option bool) (s : State) : State :=
  {| rows := rows s; trainingRows := trainingRows s;
     wrongRows := wrongRows s; lastAnswerCorrect := v;
     selectedQcmOption := selectedQcmOption s; qcmAnswered := qcmAnswered s;
     mode := mode s; direction := direction s; index := index s;
     showBack := showBack s; answer := answer s; score := score s;
     currentStreak := currentStreak s; bestStreak := bestStreak s;
     shuffleOn := shuffleOn s; list_ := list_ s; timers := timers s;
     rng := rng s; nextRef := nextRef s |}.
Definition setSelectedQcmOption (v : option string) (s : State) : State :=
  {| rows := rows s; trainingRows := trainingRows s;
     wrongRows := wrongRows s; lastAnswerCorrect := lastAnswerCorrect s;
     selectedQcmOption := v; qcmAnswered := qcmAnswered s; mode := mode s;
     direction := direction s; index := index s; showBack := showBack s;
     answer := answer s; score := score s; currentStreak := currentStreak s;
     bestStreak := bestStreak s; shuffleOn := shuffleOn s; list_ := list_ s;
     timers := timers s; rng := rng s; nextRef := nextRef s |}.
Definition setQcmAnswered (v : bool) (s : State) : State :=
  {| rows := rows s; trainingRows := trainingRows s;
     wrongRows := wrongRows s; lastAnswerCorrect := lastAnswerCorrect s;
     selectedQcmOption := selectedQcmOption s; qcmAnswered := v;
     mode := mode s; direction := direction s; index := index s;
     showBack := showBack s; answer := answer s; score := score s;
     currentStreak := currentStreak s; bestStreak := bestStreak s;
     shuffleOn := shuffleOn s; list_ := list_ s; timers := timers s;
     rng := rng s; nextRef := nextRef s |}.
Definition setMode (v : Mode) (s : State) : State :=
  {| rows := rows s; trainingRows := trainingRows s;
     wrongRows := wrongRows s; lastAnswerCorrect := lastAnswerCorrect s;
     selectedQcmOption := selectedQcmOption s; qcmAnswered := qcmAnswered s;
     mode := v; direction := direction s; index := index s;
     showBack := showBack s; answer := answer s; score := score s;
     currentStreak := currentStreak s; bestStreak := bestStreak s;
     shuffleOn := shuffleOn s; list_ := list_ s; timers := timers s;
     rng := rng s; nextRef := nextRef s |}.
Definition setDirection (v : Direction) (s : State) : State :=
  {| rows := rows s; trainingRows := trainingRows s;
     wrongRows := wrongRows s; lastAnswerCorrect := lastAnswerCorrect s;
     selectedQcmOption := selectedQcmOption s; qcmAnswered := qcmAnswered s;
     mode := mode s; direction := v; index := index s;
     showBack := showBack s; answer := answer s; score := score s;
     currentStreak := currentStreak s; bestStreak := bestStreak s;
     shuffleOn := shuffleOn s; list_ := list_ s; timers := timers s;
     rng := rng s; nextRef := nextRef s |}.
Definition setIndex (v : nat) (s : State) : State :=
  {| rows := rows s; trainingRows := trainingRows s;
     wrongRows := wrongRows s; lastAnswerCorrect := lastAnswerCorrect s;
     selectedQcmOption := selectedQcmOption s; qcmAnswered := qcmAnswered s;
     mode := mode s; direction := direction s; index := v;
     showBack := showBack s; answer := answer s; score := score s;
     currentStreak := currentStreak s; bestStreak := bestStreak s;
     shuffleOn := shuffleOn s; list_ := list_ s; timers := timers s;
     rng := rng s; nextRef := nextRef s |}.
Definition setShowBack (v : bool) (s : State) : State :=
  {| rows := rows s; trainingRows := trainingRows s;
     wrongRows := wrongRows s; lastAnswerCorrect := lastAnswerCorrect s;
     selectedQcmOption := selectedQcmOption s; qcmAnswered := qcmAnswered s;
     mode := mode s; direction := direction s; index := index s;
     showBack := v; answer := answer s; score := score s;
     currentStreak := currentStreak s; bestStreak := bestStreak s;
     shuffleOn := shuffleOn s; list_ := list_ s; timers := timers s;
     rng := rng s; nextRef := nextRef s |}.
Definition setAnswer (v : string) (s : State) : State :=
  {| rows := rows s; trainingRows := trainingRows s;
     wrongRows := wrongRows s; lastAnswerCorrect := lastAnswerCorrect s;
     selectedQcmOption := selectedQcmOption s; qcmAnswered := qcmAnswered s;
     mode := mode s; direction := direction s; index := index s;
     showBack := showBack s; answer := v; score := score s;
     currentStreak := currentStreak s; bestStreak := bestStreak s;
     shuffleOn := shuffleOn s; list_ := list_ s; timers := timers s;
     rng := rng s; nextRef := nextRef s |}.
Definition setScore (v : Score) (s : State) : State :=
  {| rows := rows s; trainingRows := trainingRows s;
     wrongRows := wrongRows s; lastAnswerCorrect := lastAnswerCorrect s;
     selectedQcmOption := selectedQcmOption s; qcmAnswered := qcmAnswered s;
     mode := mode s; direction := direction s; index := index s;
     showBack := showBack s; answer := answer s; score := v;
     currentStreak := currentStreak s; bestStreak := bestStreak s;
     shuffleOn := shuffleOn s; list_ := list_ s; timers := timers s;
     rng := rng s; nextRef := nextRef s |}.
Definition setCurrentStreak (v : nat) (s : State) : State :=
  {| rows := rows s; trainingRows := trainingRows s;
     wrongRows := wrongRows s; lastAnswerCorrect := lastAnswerCorrect s;
     selectedQcmOption := selectedQcmOption s; qcmAnswered := qcmAnswered s;
     mode := mode s; direction := direction s; index := index s;
     showBack := showBack s; answer := answer s; score := score s;
     currentStreak := v; bestStreak := bestStreak s;
     shuffleOn := shuffleOn s; list_ := list_ s; timers := timers s;
     rng := rng s; nextRef := nextRef s |}.
Definition setBestStreak (v : nat) (s : State) : State :=
  {| rows := rows s; trainingRows := trainingRows s;
     wrongRows := wrongRows s; lastAnswerCorrect := lastAnswerCorrect s;
     selectedQcmOption := selectedQcmOption s; qcmAnswered := qcmAnswered s;
     mode := mode s; direction := direction s; index := index s;
     showBack := showBack s; answer := answer s; score := score s;
     currentStreak := currentStreak s; bestStreak := v;
     shuffleOn := shuffleOn s; list_ := list_ s; timers := timers s;
     rng := rng s; nextRef := nextRef s |}.
Definition setShuffleOn (v : bool) (s : State) : State :=
  {| rows := rows s; trainingRows := trainingRows s;
     wrongRows := wrongRows s; lastAnswerCorrect := lastAnswerCorrect s;
     selectedQcmOption := selectedQcmOption s; qcmAnswered := qcmAnswered s;
     mode := mode s; direction := direction s; index := index s;
     showBack := showBack s; answer := answer s; score := score s;
     currentStreak := currentStreak s; bestStreak := bestStreak s;
     shuffleOn := v; list_ := list_ s; timers := timers s; rng := rng s;
     nextRef := nextRef s |}.
Definition set_list (v : list Vocab) (s : State) : State :=
  {| rows := rows s; trainingRows := trainingRows s;
     wrongRows := wrongRows s; lastAnswerCorrect := lastAnswerCorrect s;
     selectedQcmOption := selectedQcmOption s; qcmAnswered := qcmAnswered s;
     mode := mode s; direction := direction s; index := index s;
     showBack := showBack s; answer := answer s; score := score s;
     currentStreak := currentStreak s; bestStreak := bestStreak s;
     shuffleOn := shuffleOn s; list_ := v; timers := timers s; rng := rng s;
     nextRef := nextRef s |}.
Definition set_timers (v : list Timer) (s : State) : State :=
  {| rows := rows s; trainingRows := trainingRows s;
     wrongRows := wrongRows s; lastAnswerCorrect := lastAnswerCorrect s;
     selectedQcmOption := selectedQcmOption s; qcmAnswered := qcmAnswered s;
     mode := mode s; direction := direction s; index := index s;
     showBack := showBack s; answer := answer s; score := score s;
     currentStreak := currentStreak s; bestStreak := bestStreak s;
     shuffleOn := shuffleOn s; list_ := list_ s; timers := v; rng := rng s;
     nextRef := nextRef s |}.
Definition set_rng (v : Rng) (s : State) : State :=
  {| rows := rows s; trainingRows := trainingRows s;
     wrongRows := wrongRows s; lastAnswerCorrect := lastAnswerCorrect s;
     selectedQcmOption := selectedQcmOption s; qcmAnswered := qcmAnswered s;
     mode := mode s; direction := direction s; index := index s;
     showBack := showBack s; answer := answer s; score := score s;
     currentStreak := currentStreak s; bestStreak := bestStreak s;
     shuffleOn := shuffleOn s; list_ := list_ s; timers := timers s;
     rng := v; nextRef := nextRef s |}.
Definition set_nextRef (v : nat) (s : State) : State :=
  {| rows := rows s; trainingRows := trainingRows s;
     wrongRows := wrongRows s; lastAnswerCorrect := lastAnswerCorrect s;
     selectedQcmOption := selectedQcmOption s; qcmAnswered := qcmAnswered s;
     mode := mode s; direction := direction s; index := index s;
     showBack := showBack s; answer := answer s; score := score s;
     currentStreak := currentStreak s; bestStreak := bestStreak s;
     shuffleOn := shuffleOn s; list_ := list_ s; timers := timers s;
     rng := rng s; nextRef := v |}.

(** ** Definitions shared by the two versions of the component *)

Definition clamp (n lo hi : Z) : Z := Z.max lo (Z.min hi n).

(** [list[index]] *)
Definition current (s : State) : option Vocab := list_ s !! index s.

(** [Math.max(list.length - 1, 0)] *)
Definition lastIndex (len : nat) : Z := Z.max (Z.of_nat len - 1) 0.

(** The key of the mistake list: [`${v.EN}__${v.FR}`]. *)
Definition key (v : Vocab) : string := EN v +:+ "__" +:+ FR v.

(** [setWrongRows((wr) => (wr.some((v) => key(v) === key(current)) ? wr : [...wr, current]))] *)
Definition addWrong (cur : Vocab) (s : State) : State :=
  if existsb (fun v => bool_decide (key v = key cur)) (items (wrongRows s)) then s
  else set_nextRef (S (nextRef s))
         (setWrongRows (mkArr (nextRef s) (items (wrongRows s) ++ [cur])) s).

(** A verdict is [true], [false] or [undefined] ([None]); [correct ? a : b]
    takes the first branch on [true] only. *)
Definition truthy (correct : option bool) : bool :=
  match correct with Some true => true | _ => false end.

(** The scoring statements at the head of [nextCard], the same in both
    sources:
    [setScore((s) => ({ good: s.good + (correct ? 1 : 0), total: s.total + 1 }))],
    [setCurrentStreak((cs) => { const ns = correct ? cs + 1 : 0;
       setBestStreak((bs) => Math.max(bs, ns)); return ns; })],
    [if (!correct && current) setWrongRows(...)].
    [current] is the one of the render the handler belongs to. *)
Definition scoreAnswer (correct : option bool) (cur : option Vocab) (s : State) : State :=
  let s1 := setScore {| good := good (score s) + (if truthy correct then 1 else 0);
                        total := total (score s) + 1 |} s in
  let ns := if truthy correct then currentStreak s1 + 1 else 0 in
  let s2 := setBestStreak (Nat.max (bestStreak s1) ns) (setCurrentStreak ns s1) in
  match cur with
  | Some c => if truthy correct then s2 else addWrong c s2
  | None => s2
  end.

(** [const list = useMemo(() => (shuffleOn ? shuffle(trainingRows) : trainingRows),
    [trainingRows, shuffleOn])]: recomputed when a dependency has changed
    between two renders. *)
Definition computeList (s : State) : State :=
  if shuffleOn s then
    let (l, g') := shuffle (items (trainingRows s)) (rng s) in
    set_rng g' (set_list l s)
  else set_list (items (trainingRows s)) s.

Definition render (prev next : State) : State :=
  if bool_decide (ref (trainingRows prev) = ref (trainingRows next))
     && bool_decide (shuffleOn prev = shuffleOn next)
  then next else computeList next.

(** The verdict of the writing mode:
    [answer.trim().toLowerCase() === target.trim().toLowerCase()]. *)
Definition writingVerdict (d : Direction) (cur : Vocab) (given : string) : bool :=
  bool_decide (toLowerCase (trim given) = toLowerCase (trim (target d cur))).

(** The effect on [rows]: [setTrainingRows(rows); setWrongRows([]);] and the
    progress reset [reset] of the version at hand. *)
Definition rowsEffect (reset : State -> State) (s : State) : State :=
  reset (set_nextRef (S (nextRef s))
           (setWrongRows (mkArr (nextRef s) []) (setTrainingRows (rows s) s))).

(** [setRows(parsed)] with a newly built array. *)
Definition replaceRows (parsed : list Vocab) (s : State) : State :=
  set_nextRef (S (nextRef s)) (setRows (mkArr (nextRef s) parsed) s).

(** The [useState] initial values, from the stored preferences. *)
Definition useStateInit (storedMode : Mode) (storedDirection : Direction)
    (storedBest : nat) (storedShuffle : bool) (g : Rng) : State :=
  {| rows := mkArr 0 []; trainingRows := mkArr 1 []; wrongRows := mkArr 2 [];
     lastAnswerCorrect := None; selectedQcmOption := None; qcmAnswered := false;
     mode := storedMode; direction := storedDirection; index := 0;
     showBack := false; answer := ""; score := mkScore 0 0;
     currentStreak := 0; bestStreak := storedBest; shuffleOn := storedShuffle;
     list_ := []; timers := []; rng := g; nextRef := 3 |}.

(** The derived percentages.  [roundPct a b] stands for the floating-point
    expression [Math.round((a / b) * 100)]. *)
Section percentages.
Variable roundPct : nat -> nat -> Z.

(** [list.length ? Math.round(((index + 1) / list.length) * 100) : 0] *)
Definition progress (s : State) : Z :=
  if length (list_ s) =? 0 then 0%Z
  else roundPct (index s + 1) (length (list_ s)).

(** [score.total ? Math.round((score.good / Math.max(score.total, 1)) * 100) : 0] *)
Definition accuracy (s : State) : Z :=
  if total (score s) =? 0 then 0%Z
  else roundPct (good (score s)) (Nat.max (total (score s)) 1).
End percentages.

(** [roundPct] away from a zero divisor, with any value at one. *)
Definition guarded (f : nat -> nat -> Z) (atZero : Z) (a b : nat) : Z :=
  if b =? 0 then atZero else f a b.

(** What the user and the timers can do to the component.  Every handler is
    taken to read the state of the latest render; counters are natural
    numbers, as they start at zero (the best streak at the stored count) and
    only move by a successor, a maximum or a reset. *)
Inductive Event :=
| EvImport (parsed : list Vocab)   (* a decoded file or a stored list arrives *)
| EvFullSession                    (* "Session complète", "Recommencer", key R *)
| EvWrongOnly                      (* "Erreurs uniquement" *)
| EvSetMode (m : Mode)
| EvSetDirection (d : Direction)
| EvToggleShuffle                  (* the shuffle button, key S *)
| EvToggleBack                     (* flashcards: show or hide the answer *)
| EvKnew                           (* flashcards: "Je savais" *)
| EvReview                         (* flashcards: "Je reverrai" *)
| EvSpace                          (* the space bar *)
| EvQcmClick (opt : string)        (* a click on the option button [opt] *)
| EvType (text : string)           (* writing: the input changes *)
| EvSubmit                         (* writing: "Valider" or Enter *)
| EvPrev                           (* "Précédent", left arrow *)
| EvNext                           (* "Suivant", right arrow *)
| EvTimeout (k : nat).             (* the k-th pending timeout fires *)

(** ** The component with delayed advancement (the source with toasts,
    answer feedback, the QCM lock and keyboard shortcuts) *)
Module Trainer.

Definition hardResetProgress (s : State) : State :=
  setSelectedQcmOption None
    (setQcmAnswered false
       (setCurrentStreak 0
          (setScore (mkScore 0 0)
             (setAnswer "" (setShowBack false (setIndex 0 s)))))).

Definition resetSession : State -> State := hardResetProgress.

(** [nextCard(correct)]: the scoring is immediate, the advancement is left
    to a timeout whose callback keeps [mode] and [list.length] of the
    render that scheduled it. *)
Definition nextCard (correct : option bool) (s : State) : State :=
  let s1 := scoreAnswer correct (current s) (setLastAnswerCorrect correct s) in
  let s2 := if bool_decide (mode s = qcm) then s1
            else setSelectedQcmOption None (setQcmAnswered false s1) in
  set_timers (timers s2 ++ [mkTimer (bool_decide (mode s = qcm)) (length (list_ s))]) s2.

(** The callback of the timeout. *)
Definition advance (t : Timer) (s : State) : State :=
  let s1 := setAnswer "" (setShowBack false (setLastAnswerCorrect None s)) in
  let s2 := if t_qcm t then setSelectedQcmOption None (setQcmAnswered false s1)
            else s1 in
  setIndex (Z.to_nat (clamp (Z.of_nat (index s2) + 1) 0 (lastIndex (t_len t)))) s2.

Definition jumpTo (i : Z) (s : State) : State :=
  setSelectedQcmOption None
    (setQcmAnswered false
       (setAnswer ""
          (setShowBack false
             (setIndex (Z.to_nat (clamp i 0 (lastIndex (length (list_ s))))) s)))).

Definition handleAnswerSubmit (s : State) : State :=
  match current s with
  | None => s
  | Some cur => nextCard (Some (writingVerdict (direction s) cur (answer s))) s
  end.

(** The [onClick] of an option button; the buttons exist for a defined
    [current] only. *)
Definition qcmClick (opt : string) (cur : Vocab) (s : State) : State :=
  if qcmAnswered s then s
  else
    let isCorrect := bool_decide (opt = target (direction s) cur) in
    nextCard (Some isCorrect) (setQcmAnswered true (setSelectedQcmOption (Some opt) s)).

(** The handlers behind each event, with the conditions under which the
    control is rendered and enabled. *)
Definition handle (e : Event) (s : State) : State :=
  match e with
  | EvImport parsed =>
      if length parsed =? 0 then s
      else
        rowsEffect (fun s' => setSelectedQcmOption None
                                (setQcmAnswered false (hardResetProgress s')))
          (replaceRows parsed s)
  | EvFullSession => hardResetProgress (setTrainingRows (rows s) s)
  | EvWrongOnly =>
      if 0 <? length (items (wrongRows s))
      then hardResetProgress (setTrainingRows (wrongRows s) s)
      else s
  | EvSetMode m => resetSession (setMode m s)
  | EvSetDirection d => resetSession (setDirection d s)
  | EvToggleShuffle => setShuffleOn (negb (shuffleOn s)) s
  | EvToggleBack =>
      match current s, mode s with
      | Some _, flashcards => setShowBack (negb (showBack s)) s
      | _, _ => s
      end
  | EvKnew =>
      match current s, mode s with
      | Some _, flashcards => nextCard (Some true) s
      | _, _ => s
      end
  | EvReview =>
      match current s, mode s with
      | Some _, flashcards => nextCard (Some false) s
      | _, _ => s
      end
  | EvSpace =>
      match mode s with
      | flashcards => if showBack s then nextCard None s else setShowBack true s
      | _ => s
      end
  | EvQcmClick opt =>
      match current s, mode s with
      | Some cur, qcm => qcmClick opt cur s
      | _, _ => s
      end
  | EvType text =>
      match current s, mode s with
      | Some _, writing => setAnswer text s
      | _, _ => s
      end
  | EvSubmit =>
      match current s, mode s with
      | Some _, writing => handleAnswerSubmit s
      | _, _ => s
      end
  | EvPrev => if 0 <? index s then jumpTo (Z.of_nat (index s) - 1) s else s
  | EvNext =>
      if (Z.of_nat (index s) <? Z.of_nat (length (list_ s)) - 1)%Z
      then jumpTo (Z.of_nat (index s) + 1) s else s
  | EvTimeout k =>
      match timers s !! k with
      | Some t => advance t (set_timers (delete k (timers s)) s)
      | None => s
      end
  end.

(** One event: its handler, then the render that follows. *)
Definition step (s : State) (e : Event) : State := render s (handle e s).

Definition run (es : list Event) (s : State) : State := foldl step s es.

(** The mounted component: the initial values, then the first run of the
    effect on [rows]. *)
Definition initial (storedMode : Mode) (storedDirection : Direction)
    (storedBest : nat) (storedShuffle : bool) (g : Rng) : State :=
  let s := useStateInit storedMode storedDirection storedBest storedShuffle g in
  render s (rowsEffect (fun s' => setSelectedQcmOption None
                                    (setQcmAnswered false (hardResetProgress s'))) s).
End Trainer.

(** ** The component with immediate advancement
    ([src/ludyenglish/src/App.tsx]) *)
Module LudyEnglish.

Definition hardResetProgress (s : State) : State :=
  setCurrentStreak 0
    (setScore (mkScore 0 0) (setAnswer "" (setShowBack false (setIndex 0 s)))).

Definition resetSession : State -> State := hardResetProgress.

(** [nextCard(correct)]: scoring and advancement in the same handler. *)
Definition nextCard (correct : option bool) (s : State) : State :=
  let s1 := scoreAnswer correct (current s) s in
  setIndex (Z.to_nat (clamp (Z.of_nat (index s1) + 1) 0 (lastIndex (length (list_ s)))))
    (setAnswer "" (setShowBack false s1)).

Definition jumpTo (i : Z) (s : State) : State :=
  setAnswer ""
    (setShowBack false
       (setIndex (Z.to_nat (clamp i 0 (lastIndex (length (list_ s))))) s)).

Definition handleAnswerSubmit (s : State) : State :=
  match current s with
  | None => s
  | Some cur => nextCard (Some (writingVerdict (direction s) cur (answer s))) s
  end.

(** [onClick={() => nextCard(opt === target)}] *)
Definition qcmClick (opt : string) (cur : Vocab) (s : State) : State :=
  nextCard (Some (bool_decide (opt = target (direction s) cur))) s.

Definition handle (e : Event) (s : State) : State :=
  match e with
  | EvImport parsed => rowsEffect hardResetProgress (replaceRows parsed s)
  | EvFullSession => hardResetProgress (setTrainingRows (rows s) s)
  | EvWrongOnly =>
      if 0 <? length (items (wrongRows s))
      then hardResetProgress (setTrainingRows (wrongRows s) s)
      else s
  | EvSetMode m => resetSession (setMode m s)
  | EvSetDirection d => resetSession (setDirection d s)
  | EvToggleShuffle => setShuffleOn (negb (shuffleOn s)) s
  | EvToggleBack =>
      match current s, mode s with
      | Some _, flashcards => setShowBack (negb (showBack s)) s
      | _, _ => s
      end
  | EvKnew =>
      match current s, mode s with
      | Some _, flashcards => nextCard (Some true) s
      | _, _ => s
      end
  | EvReview =>
      match current s, mode s with
      | Some _, flashcards => nextCard (Some false) s
      | _, _ => s
      end
  | EvQcmClick opt =>
      match current s, mode s with
      | Some cur, qcm => qcmClick opt cur s
      | _, _ => s
      end
  | EvType text =>
      match current s, mode s with
      | Some _, writing => setAnswer text s
      | _, _ => s
      end
  | EvSubmit =>
      match current s, mode s with
      | Some _, writing => handleAnswerSubmit s
      | _, _ => s
      end
  | EvPrev => if 0 <? index s then jumpTo (Z.of_nat (index s) - 1) s else s
  | EvNext =>
      if (Z.of_nat (index s) <? Z.of_nat (length (list_ s)) - 1)%Z
      then jumpTo (Z.of_nat (index s) + 1) s else s
  | EvSpace | EvTimeout _ => s   (* no keyboard handler, no timeout *)
  end.

Definition step (s : State) (e : Event) : State := render s (handle e s).

Definition run (es : list Event) (s : State) : State := foldl step s es.

Definition initial (storedMode : Mode) (storedDirection : Direction)
    (storedBest : nat) (storedShuffle : bool) (g : Rng) : State :=
  let s := useStateInit storedMode storedDirection storedBest storedShuffle g in
  render s (rowsEffect hardResetProgress s).
End LudyEnglish.

(** ** The properties of the specification, as predicates on states *)

(** The scoring effects of one submission with verdict [verdict], from [s]
    to [s']: the total goes up by one, the correct count by one on a correct
    verdict only, the streak grows on a correct verdict and falls to zero
    otherwise, the best streak is the larger of itself and the new streak. *)
Definition scoringEffects (verdict : bool) (s s' : State) : Prop :=
  total (score s') = total (score s) + 1
  /\ good (score s') = good (score s) + (if verdict then 1 else 0)
  /\ currentStreak s' = (if verdict then currentStreak s + 1 else 0)
  /\ bestStreak s' = Nat.max (bestStreak s) (currentStreak s').

(** [score.correct ≤ score.total] and [currentStreak ≤ bestStreak]. *)
Definition scoringInvariant (s : State) : Prop :=
  good (score s) <= total (score s) /\ currentStreak s <= bestStreak s.


(** What one handler can do to the mistake list: empty it (an import only),
    leave it, or add the current entry through [addWrong]. *)
Definition wrongRowsChange (e : Event) (s s' : State) : Prop :=
  ((exists parsed, e = EvImport parsed) /\ items (wrongRows s') = [])
  \/ items (wrongRows s') = items (wrongRows s)
  \/ (exists c : Vocab, current s = Some c
        /\ items (wrongRows s') = items (wrongRows (addWrong c s))).

(** ** Further parts of the sources *)


(** The condition of the effect that fires the end-of-session confetti:
    [list.length > 0 && score.total === list.length && score.good === list.length]. *)
Definition sessionPerfect (s : State) : bool :=
  (0 <? length (list_ s))
  && (total (score s) =? length (list_ s))
  && (good (score s) =? length (list_ s)).

(** [setSelectedCsvIds((prev) => (prev.includes(id) ? prev.filter((x) => x !== id) : [...prev, id]))] *)
Definition toggleSelectedCsv (id : string) (prev : list string) : list string :=
  if bool_decide (id ∈ prev) then filter (fun x => x ≠ id) prev else prev ++ [id].

(** The events that call [nextCard]. *)
Definition submits (e : Event) : bool :=
  match e with
  | EvKnew | EvReview | EvSpace | EvQcmClick _ | EvSubmit => true
  | _ => false
  end.

(** The events that call [hardResetProgress]. *)
Definition resets (e : Event) : bool :=
  match e with
  | EvImport _ | EvFullSession | EvWrongOnly | EvSetMode _ | EvSetDirection _ => true
  | _ => false
  end.

(** The identities of the state arrays tell their contents apart. *)
Definition refsOk (s : State) : Prop :=
  ref (rows s) < nextRef s
  /\ ref (trainingRows s) < nextRef s
  /\ ref (wrongRows s) < nextRef s
  /\ ref (rows s) ≠ ref (wrongRows s)
  /\ (ref (trainingRows s) = ref (rows s) -> trainingRows s = rows s)
  /\ (ref (trainingRows s) = ref (wrongRows s) -> trainingRows s = wrongRows s).

(** The memoised list is the training list, reordered when shuffling is on. *)
Definition listOk (s : State) : Prop :=
  list_ s ≡ₚ items (trainingRows s)
  /\ (shuffleOn s = false -> list_ s = items (trainingRows s)).

(** Mistakes and training entries are entries of the imported rows. *)
Definition fromRows (s : State) : Prop :=
  items (wrongRows s) ⊆ items (rows s) /\ items (trainingRows s) ⊆ items (rows s).

(** The streak against the score of the session. *)
Definition streakOk (s : State) : Prop :=
  currentStreak s <= good (score s)
  /\ good (score s) <= total (score s)
  /\ (good (score s) = total (score s) -> currentStreak s = total (score s)).

(** No character of the string is an underscore. *)
Fixpoint noUnderscore (s : string) : bool :=
  match s with
  | EmptyString => true
  | String c r => negb (bool_decide (c = "_"%char)) && noUnderscore r
  end.

(** The pool without the element at the avoided index, when that is an index
    of the pool. *)
Definition withoutAvoided {T} (arr : list T) (avoidIndex : option Z) : list T :=
  match avoidIndex with
  | Some z =>
      if bool_decide (0 <= z < Z.of_nat (length arr))%Z
      then delete (Z.to_nat z) arr else arr
  | None => arr
  end.

(** ** The remote best streak ([useUserData])

    The branch of [load] for a stored document:
    [if (typeof data.bestStreak === "number" && data.bestStreak > bestStreak)
       setBestStreak(data.bestStreak)].
    [captured] is the [bestStreak] of the render in which the effect on
    [user] ran; [remote] is the stored number, if there is one. *)
Definition loadBestStreak (captured : nat) (remote : option nat) (s : State) : State :=
  match remote with
  | Some r => if captured <? r then setBestStreak r s else s
  | None => s
  end.

(** ** Toasts *)

Inductive ToastType := success | error | info.

Record Toast := mkToast { t_id : nat; t_message : string; t_type : ToastType }.

(** The [toasts] cell and [toastIdRef.current]. *)
Record Toasts := mkToasts { shown : list Toast; toastIdRef : nat }.

(** [const id = toastIdRef.current++; setToasts((prev) => [...prev, { id, message, type }])] *)
Definition showToast (message : string) (type : ToastType) (ts : Toasts) : Toasts :=
  mkToasts (shown ts ++ [mkToast (toastIdRef ts) message type]) (S (toastIdRef ts)).

(** [setToasts((prev) => prev.filter((t) => t.id !== id))], from the timeout
    of [showToast] or from the close button. *)
Definition dismissToast (id : nat) (ts : Toasts) : Toasts :=
  mkToasts (filter (fun t => t_id t ≠ id) (shown ts)) (toastIdRef ts).

Inductive ToastEvent :=
| TShow (message : string) (type : ToastType)
| TDismiss (id : nat).

Definition toastStep (ts : Toasts) (e : ToastEvent) : Toasts :=
  match e with
  | TShow message type => showToast message type ts
  | TDismiss id => dismissToast id ts
  end.

(** ** The Pomodoro timer *)

Inductive Phase := work | break.

Record Pomodoro := mkPomodoro { phase : Phase; running : bool; timeLeft : nat }.

Definition WORK : nat := 25 * 60.
Definition BREAK : nat := 5 * 60.

(** [next === "work" ? WORK : BREAK] *)
Definition phaseLength (p : Phase) : nat :=
  match p with work => WORK | break => BREAK end.

Definition otherPhase (p : Phase) : Phase :=
  match p with work => break | break => work end.

Inductive PomodoroEvent :=
| PTick      (* the one-second interval, which exists while [running] *)
| PToggle    (* Start / Pause *)
| PSwitch    (* Switch *)
| PReset.    (* Reset *)

Definition pomodoroInit : Pomodoro := mkPomodoro work false WORK.

Definition pomodoroStep (p : Pomodoro) (e : PomodoroEvent) : Pomodoro :=
  match e with
  | PTick =>
      if running p then
        if 0 <? timeLeft p
        then mkPomodoro (phase p) (running p) (timeLeft p - 1)
        else mkPomodoro (otherPhase (phase p)) (running p)
               (phaseLength (otherPhase (phase p)))
      else p
  | PToggle => mkPomodoro (phase p) (negb (running p)) (timeLeft p)
  | PSwitch =>
      mkPomodoro (otherPhase (phase p)) (running p) (phaseLength (otherPhase (phase p)))
  | PReset => mkPomodoro work false WORK
  end.

Definition pomodoroRun (es : list PomodoroEvent) (p : Pomodoro) : Pomodoro :=
  foldl pomodoroStep p es.

(** [Math.floor(timeLeft / 60)] and [timeLeft % 60], the numbers behind
    [mm] and [ss]. *)
Definition minutes (p : Pomodoro) : nat := timeLeft p `div` 60.
Definition seconds (p : Pomodoro) : nat := timeLeft p `mod` 60.

(** * Proofs *)

(** ** The record normaliser *)





Example normalizeRow_headers :
  normalizeRow (Some [("en", "hello"); ("fr", " bonjour "); ("eg", "Hello!")])
  = Some {| EN := "hello"; FR := "bonjour"; EG := Some "Hello!" |}.
Proof. reflexivity. Qed.

Example normalizeRow_missing_EG :
  normalizeRow (Some [("EN", "cat"); ("FR", "chat")])
  = Some {| EN := "cat"; FR := "chat"; EG := Some "" |}.
Proof. reflexivity. Qed.

Example normalizeRow_blank :
  normalizeRow (Some [("EN", "  "); ("EG", "only an example")]) = None.
Proof. reflexivity. Qed.

Example normalizeRow_last_header_wins :
  normalizeRow (Some [("en", "first"); ("FR", "x"); (" En", "second")])
  = Some {| EN := "second"; FR := "x"; EG := Some "" |}.
Proof. reflexivity. Qed.

(** ** The random utilities *)

Lemma floorMul_lt (u : Unit01) (n : nat) : 0 < n -> floorMul u n < n.
Proof.
  intros Hn. unfold floorMul. apply Nat.Div0.div_lt_upper_bound. nia.
Qed.

(** Every index below [n] is the floor of some draw. *)
Lemma floorMul_complete (j n : nat) :
  j < n -> floorMul (mkUnit01 j (n - 1 - j)) n = j.
Proof.
  intros Hj. unfold floorMul. simpl.
  replace (j + (n - 1 - j) + 1) with n by lia.
  apply Nat.div_mul. lia.
Qed.

Section arrays.
Context {T : Type}.
Implicit Types (b xs : list T) (g : Rng).

Lemma swap_perm i j b : swap i j b ≡ₚ b.
Proof.
  unfold swap.
  destruct (b !! i) as [x|] eqn:Hi; [|reflexivity].
  destruct (b !! j) as [y|] eqn:Hj; [|reflexivity].
  now apply Permutation_insert_swap.
Qed.

Lemma swap_length i j b : length (swap i j b) = length b.
Proof. apply Permutation_length, swap_perm. Qed.

(** The two reads of a swap inside the loop are inside the array. *)
Lemma swap_in_loop_range (u : Unit01) i b :
  i < length b -> is_Some (b !! i) /\ is_Some (b !! floorMul u (i + 1)).
Proof.
  intros Hi. split; apply lookup_lt_is_Some; [exact Hi|].
  pose proof (floorMul_lt u (i + 1)). lia.
Qed.

Lemma fisherYates_perm i b g : (fisherYates i b g).1 ≡ₚ b.
Proof.
  revert b g. induction i as [|i IH]; intros b g; simpl; [reflexivity|].
  rewrite IH. apply swap_perm.
Qed.

Lemma shuffle_perm xs g : (shuffle xs g).1 ≡ₚ xs.
Proof. apply fisherYates_perm. Qed.

Lemma shuffle_length xs g : length (shuffle xs g).1 = length xs.
Proof. apply Permutation_length, shuffle_perm. Qed.

(** The loop over the store writes to the array at [b] and nowhere else. *)
Lemma heap_loop_value i (b : positive) (h : gmap positive (list T)) xs g :
  h !! b = Some xs ->
  Heap.loop i b h g = (<[b := (fisherYates i xs g).1]> h, (fisherYates i xs g).2).
Proof.
  revert h xs g. induction i as [|i IH]; intros h xs g Hb; simpl.
  - now rewrite insert_id.
  - unfold Heap.swapAt. rewrite Hb.
    erewrite IH by apply lookup_insert_eq.
    now rewrite insert_insert_eq.
Qed.
End arrays.

(** C8.  [shuffle] returns a new array holding a permutation of the input:
    same elements with the same multiplicities, same length, the empty and
    the one-element arrays included; the input array and every other array
    of the store are as they were. *)
Theorem shuffle_permutation {T : Type} (h : gmap positive (list T)) (a : positive)
    (xs : list T) (g : Rng) :
  h !! a = Some xs ->
  exists (b : positive) (ys : list T) (g' : Rng),
    Heap.shuffle a h g = Some (b, <[b := ys]> h, g')
    /\ h !! b = None
    /\ (<[b := ys]> h) !! a = Some xs
    /\ (ys, g') = shuffle xs g
    /\ ys ≡ₚ xs
    /\ length ys = length xs
    /\ (length xs <= 1 -> ys = xs).
Proof.
  intros Ha.
  set (b := fresh (dom h)).
  assert (Hb : h !! b = None).
  { apply not_elem_of_dom. apply is_fresh. }
  exists b, (shuffle xs g).1, (shuffle xs g).2.
  split; [|split; [|split; [|split; [|split; [|split]]]]].
  - unfold Heap.shuffle, Heap.alloc. rewrite Ha. simpl. fold b.
    rewrite (heap_loop_value _ b _ xs) by apply lookup_insert_eq.
    now rewrite insert_insert_eq.
  - exact Hb.
  - rewrite lookup_insert_ne; [exact Ha|]. intros ->. congruence.
  - now destruct (shuffle xs g).
  - apply shuffle_perm.
  - apply shuffle_length.
  - intros Hlen. unfold shuffle.
    destruct xs as [|x [|y xs]]; simpl in *; [reflexivity|reflexivity|lia].
Qed.

Lemma shuffle_permutation_witness :
  ({[1%positive := [10; 20; 30]]} : gmap positive (list nat)) !! 1%positive
  = Some [10; 20; 30]
  /\ exists (b : positive) (ys : list nat) (g' : Rng),
       Heap.shuffle 1%positive {[1%positive := [10; 20; 30]]} (fun k => mkUnit01 k 1)
       = Some (b, <[b := ys]> {[1%positive := [10; 20; 30]]}, g')
       /\ ys ≡ₚ [10; 20; 30].
Proof.
  assert (Hin : ({[1%positive := [10; 20; 30]]} : gmap positive (list nat))
                  !! 1%positive = Some [10; 20; 30]) by reflexivity.
  split; [exact Hin|].
  destruct (shuffle_permutation _ _ _ (fun k => mkUnit01 k 1) Hin)
    as (b & ys & g' & Hrun & _ & _ & _ & Hperm & _).
  exists b, ys, g'. split; assumption.
Defined.

Example shuffle_example :
  (shuffle ["a"; "b"; "c"; "d"] (fun k => mkUnit01 k 1)).1 = ["d"; "c"; "b"; "a"].
Proof. reflexivity. Qed.

(** *** pickN *)

Lemma candidateIndices_elem (n : nat) (avoidIndex : option Z) (i : nat) :
  i ∈ candidateIndices n avoidIndex <-> i < n /\ Some (Z.of_nat i) ≠ avoidIndex.
Proof.
  unfold candidateIndices. rewrite list_elem_of_filter, elem_of_seq.
  split; intros [? ?]; split; auto; lia.
Qed.

Lemma candidateIndices_NoDup (n : nat) (avoidIndex : option Z) :
  NoDup (candidateIndices n avoidIndex).
Proof. apply NoDup_filter, NoDup_seq. Qed.

Lemma filter_seq_length (avoidIndex : option Z) (n s : nat) :
  length (filter (fun i => Some (Z.of_nat i) ≠ avoidIndex) (seq s n))
  = match avoidIndex with
    | Some z =>
        if bool_decide (Z.of_nat s <= z < Z.of_nat s + Z.of_nat n)%Z then n - 1 else n
    | None => n
    end.
Proof.
  revert s. induction n as [|n IH]; intros s.
  - simpl. destruct avoidIndex as [z|]; [|reflexivity]. now case_bool_decide.
  - cbn [seq]. rewrite filter_cons. specialize (IH (S s)).
    destruct avoidIndex as [z|].
    + destruct (decide (Some (Z.of_nat s) ≠ Some z)) as [Hne|Heq].
      * cbn [length]. rewrite IH.
        assert (Z.of_nat s ≠ z) by congruence.
        repeat case_bool_decide; lia.
      * assert (Z.of_nat s = z).
        { destruct (decide (Z.of_nat s = z)) as [|Hd]; [assumption|].
          exfalso. apply Heq. congruence. }
        rewrite IH. repeat case_bool_decide; lia.
    + destruct (decide (Some (Z.of_nat s) ≠ None)) as [|Hd]; [|exfalso; now apply Hd].
      cbn [length]. now rewrite IH.
Qed.

Lemma candidateIndices_length (n : nat) (avoidIndex : option Z) :
  length (candidateIndices n avoidIndex) = eligible n avoidIndex.
Proof.
  unfold candidateIndices, eligible. rewrite filter_seq_length.
  destruct avoidIndex as [z|]; [|reflexivity].
  repeat case_bool_decide; lia.
Qed.

Lemma slice0_nonneg {T : Type} (e : Z) (l : list T) :
  (0 <= e)%Z -> slice0 e l = take (Z.to_nat e) l.
Proof.
  intros He. unfold slice0.
  destruct (e <? 0)%Z eqn:E; [lia|reflexivity].
Qed.

(** Reading an array at indices that are all inside it. *)
Lemma omap_lookup_Forall2 {T : Type} (arr : list T) (idxs : list nat) :
  Forall (fun i => i < length arr) idxs ->
  Forall2 (fun i x => arr !! i = Some x) idxs (omap (fun i => arr !! i) idxs).
Proof.
  induction 1 as [|i idxs Hi _ IH]; simpl; [constructor|].
  destruct (lookup_lt_is_Some_2 arr i Hi) as [x Hx]. rewrite Hx.
  now constructor.
Qed.

(** The indices behind the result of [pickN]: distinct, inside the array,
    none of them the avoided one, and the result reads the array at them in
    order. *)
Lemma pickN_indices {T : Type} (arr : list T) (n : Z) (avoidIndex : option Z) (g : Rng) :
  exists idxs : list nat,
    NoDup idxs
    /\ (forall i, i ∈ idxs -> i < length arr /\ Some (Z.of_nat i) ≠ avoidIndex)
    /\ Forall2 (fun i x => arr !! i = Some x) idxs (pickN arr n avoidIndex g).1
    /\ ((0 <= n)%Z ->
        length idxs = Nat.min (Z.to_nat n) (eligible (length arr) avoidIndex)).
Proof.
  unfold pickN.
  set (cand := candidateIndices (length arr) avoidIndex).
  pose proof (fisherYates_perm (length cand - 1) cand g) as Hperm.
  destruct (fisherYates (length cand - 1) cand g) as [idxs' g'] eqn:Hfy.
  simpl in Hperm. simpl.
  set (kept := slice0 (Z.min n (Z.of_nat (length idxs'))) idxs').
  assert (Hsub : kept `sublist_of` idxs') by apply sublist_take.
  assert (Hin : forall i, i ∈ kept -> i ∈ cand).
  { intros i Hi. rewrite <- Hperm. eapply elem_of_sublist; eauto. }
  exists kept. split; [|split; [|split]].
  - eapply sublist_NoDup; [|exact Hsub].
    rewrite Hperm. apply candidateIndices_NoDup.
  - intros i Hi. apply candidateIndices_elem. auto.
  - apply omap_lookup_Forall2. apply Forall_forall. intros i Hi.
    apply Hin, candidateIndices_elem in Hi. tauto.
  - intros Hn. unfold kept. rewrite slice0_nonneg by lia.
    rewrite length_take, (Permutation_length Hperm).
    unfold cand. rewrite candidateIndices_length. lia.
Qed.

(** C6.  For a count [n] (a number that is not negative), [pickN] returns a
    new array of [min(n, eligible)] elements, where [eligible] is the length
    of the pool less one when [avoidIndex] is one of its indices; the
    elements are read at pairwise distinct indices, none of them the avoided
    one, so that the element at the avoided index is in the result only if
    the pool holds an equal value at another index; the pool is as it was. *)
Theorem pickN_spec {T : Type} (h : gmap positive (list T)) (arr : positive)
    (pool : list T) (n : Z) (avoidIndex : option Z) (g : Rng) :
  h !! arr = Some pool ->
  (0 <= n)%Z ->
  exists (r : positive) (res : list T) (g' : Rng) (idxs : list nat),
    Heap.pickN arr n avoidIndex h g = Some (r, <[r := res]> h, g')
    /\ h !! r = None
    /\ (<[r := res]> h) !! arr = Some pool
    /\ (res, g') = pickN pool n avoidIndex g
    /\ Z.of_nat (length res) = Z.min n (Z.of_nat (eligible (length pool) avoidIndex))
    /\ NoDup idxs
    /\ Forall2 (fun i x => pool !! i = Some x) idxs res
    /\ (forall i, i ∈ idxs -> Some (Z.of_nat i) ≠ avoidIndex)
    /\ (forall (k : nat) (x : T),
          avoidIndex = Some (Z.of_nat k) -> pool !! k = Some x -> x ∈ res ->
          exists k' : nat, k' ≠ k /\ pool !! k' = Some x).
Proof.
  intros Harr Hn.
  destruct (pickN_indices pool n avoidIndex g) as (idxs & Hnd & Hidx & Hread & Hlen).
  set (r := fresh (dom h)).
  assert (Hr : h !! r = None) by apply not_elem_of_dom, is_fresh.
  exists r, (pickN pool n avoidIndex g).1, (pickN pool n avoidIndex g).2, idxs.
  split; [|split; [|split; [|split; [|split; [|split; [|split; [|split]]]]]]].
  - unfold Heap.pickN, Heap.alloc. rewrite Harr. simpl. fold r.
    now destruct (pickN pool n avoidIndex g).
  - exact Hr.
  - rewrite lookup_insert_ne; [exact Harr|]. intros ->. congruence.
  - now destruct (pickN pool n avoidIndex g).
  - rewrite <- (Forall2_length _ _ _ Hread), (Hlen Hn). lia.
  - exact Hnd.
  - exact Hread.
  - intros i Hi. now apply Hidx.
  - intros k x Hk Hpool Hx.
    apply list_elem_of_lookup in Hx as [p Hp].
    destruct (Forall2_lookup_r _ _ _ _ _ Hread Hp) as (i & Hi & Hix).
    destruct (Hidx i) as [_ Hne]; [apply list_elem_of_lookup; eauto|].
    exists i. split; [|exact Hix].
    intros ->. now apply Hne.
Qed.

Lemma pickN_spec_witness :
  (({[1%positive := ["a"; "b"; "c"; "d"]]} : gmap positive (list string)) !! 1%positive
   = Some ["a"; "b"; "c"; "d"]
   /\ (0 <= 3)%Z)
  /\ exists (r : positive) (res : list string) (g' : Rng),
       Heap.pickN 1%positive 3 (Some 1%Z) {[1%positive := ["a"; "b"; "c"; "d"]]}
         (fun k => mkUnit01 1 k)
       = Some (r, <[r := res]> {[1%positive := ["a"; "b"; "c"; "d"]]}, g')
       /\ Z.of_nat (length res) = 3%Z.
Proof.
  assert (Hin : ({[1%positive := ["a"; "b"; "c"; "d"]]} : gmap positive (list string))
                  !! 1%positive = Some ["a"; "b"; "c"; "d"]) by reflexivity.
  assert (Hn : (0 <= 3)%Z) by lia.
  split; [split; [exact Hin|exact Hn]|].
  destruct (pickN_spec _ _ _ 3%Z (Some 1%Z) (fun k => mkUnit01 1 k) Hin Hn)
    as (r & res & g' & idxs & Hrun & _ & _ & _ & Hlen & _).
  exists r, res, g'. split; [exact Hrun|exact Hlen].
Defined.

(** The self-test of the sources: [pickN(["a","b","c","d"], 3, 1)] has at
    most three elements and no ["b"]. *)
Example pickN_selftest :
  (pickN ["a"; "b"; "c"; "d"] 3 (Some 1%Z) (fun k => mkUnit01 1 k)).1 = ["d"; "a"; "c"].
Proof. reflexivity. Qed.

Example pickN_more_than_eligible :
  (pickN ["a"; "b"; "c"; "d"] 7 None (fun k => mkUnit01 1 k)).1 = ["d"; "a"; "b"; "c"].
Proof. reflexivity. Qed.

(** A negative [n] is not a count: [slice(0, n)] then drops from the end. *)
Example pickN_negative_n :
  (pickN ["a"; "b"; "c"; "d"] (-1) (Some 1%Z) (fun k => mkUnit01 1 k)).1 = ["d"; "a"].
Proof. reflexivity. Qed.

(** ** The multiple-choice option set *)

Lemma indexOfFrom_elem (x : string) (pool : list string) (s : nat) :
  x ∈ pool ->
  exists k : nat, indexOfFrom x pool s = Z.of_nat (s + k) /\ pool !! k = Some x.
Proof.
  revert s. induction pool as [|y pool IH]; intros s Hx.
  - now apply elem_of_nil in Hx.
  - simpl. destruct (decide (y = x)) as [->|Hne].
    + exists 0. split; [f_equal; lia|reflexivity].
    + apply elem_of_cons in Hx as [->|Hx]; [congruence|].
      destruct (IH (S s) Hx) as (k & Hk & Hlook).
      exists (S k). split; [rewrite Hk; f_equal; lia|exact Hlook].
Qed.

Lemma eligible_indexOf (x : string) (pool : list string) :
  x ∈ pool -> eligible (length pool) (Some (indexOf x pool)) = length pool - 1.
Proof.
  intros Hx. destruct (indexOfFrom_elem x pool 0 Hx) as (k & Hk & Hlook).
  unfold indexOf, eligible. rewrite Hk.
  apply lookup_lt_Some in Hlook. case_bool_decide; lia.
Qed.

Lemma eligible_le (len : nat) (avoidIndex : option Z) : eligible len avoidIndex <= len.
Proof. unfold eligible. destruct avoidIndex; [case_bool_decide|]; lia. Qed.

Lemma pickN_length {T : Type} (arr : list T) (n : Z) (avoidIndex : option Z) (g : Rng) :
  (0 <= n)%Z ->
  length (pickN arr n avoidIndex g).1
  = Nat.min (Z.to_nat n) (eligible (length arr) avoidIndex).
Proof.
  intros Hn.
  destruct (pickN_indices arr n avoidIndex g) as (idxs & _ & _ & Hread & Hlen).
  rewrite <- (Forall2_length _ _ _ Hread). auto.
Qed.

(** C7.  With a current entry and a working list that is not empty, the
    option set has between one and four members and the target of the
    current entry is one of them (and it has [min(4, list.length)] members
    when the current entry belongs to the list); without a current entry, or
    with an empty list, it is empty. *)
Theorem qcmOptions_spec (cur : option Vocab) (l : list Vocab) (d : Direction) (g : Rng) :
  match cur with
  | Some c =>
      if decide (l = []) then (qcmOptions cur l d g).1 = []
      else
        1 <= length (qcmOptions cur l d g).1 <= 4
        /\ target d c ∈ (qcmOptions cur l d g).1
        /\ (c ∈ l -> length (qcmOptions cur l d g).1 = Nat.min 4 (length l))
  | None => (qcmOptions cur l d g).1 = []
  end.
Proof.
  destruct cur as [c|]; [|reflexivity].
  destruct (decide (l = [])) as [->|Hne]; [reflexivity|].
  unfold qcmOptions.
  destruct (length l =? 0) eqn:Hlen.
  { apply Nat.eqb_eq in Hlen. destruct l; [congruence|discriminate]. }
  set (pool := map (target d) l).
  pose proof (pickN_length pool 3 (Some (indexOf (target d c) pool)) g) as Hpick.
  destruct (pickN pool 3 (Some (indexOf (target d c) pool)) g) as [dis g1].
  cbn [fst] in Hpick. specialize (Hpick ltac:(lia)).
  change (Z.to_nat 3) with 3 in Hpick.
  pose proof (eligible_le (length pool) (Some (indexOf (target d c) pool))).
  pose proof (shuffle_perm (target d c :: dis) g1) as Hperm.
  pose proof (Permutation_length Hperm) as Hplen. simpl in Hplen.
  cbv beta iota.
  split; [lia|split].
  - rewrite Hperm. apply elem_of_cons. now left.
  - intros Hc. rewrite Hplen, Hpick.
    rewrite eligible_indexOf by (unfold pool; now apply list_elem_of_fmap_2).
    unfold pool. rewrite length_map.
    apply Nat.eqb_neq in Hlen. lia.
Qed.

(** The set of the self-test: four distinct entries, the first one current. *)
Example qcmOptions_four_entries :
  (qcmOptions (Some (mkVocab "cat" "chat" None))
     [mkVocab "cat" "chat" None; mkVocab "dog" "chien" None;
      mkVocab "bird" "oiseau" None; mkVocab "fish" "poisson" None]
     FR_EN (fun k => mkUnit01 1 k)).1
  = ["bird"; "dog"; "cat"; "fish"].
Proof. reflexivity. Qed.

(** Two entries with the same target: the target can show twice. *)
Example qcmOptions_duplicate_target :
  (qcmOptions (Some (mkVocab "cat" "chat" None))
     [mkVocab "cat" "chat" None; mkVocab "cat" "minou" None]
     FR_EN (fun k => mkUnit01 1 k)).1
  = ["cat"; "cat"].
Proof. reflexivity. Qed.

(** ** Scoring *)

(** What a render and the mistake list leave alone. *)
Lemma computeList_fields (s : State) :
  score (computeList s) = score s
  /\ currentStreak (computeList s) = currentStreak s
  /\ bestStreak (computeList s) = bestStreak s
  /\ wrongRows (computeList s) = wrongRows s
  /\ qcmAnswered (computeList s) = qcmAnswered s
  /\ mode (computeList s) = mode s.
Proof.
  unfold computeList. destruct (shuffleOn s); [|now repeat split].
  destruct (shuffle _ _). now repeat split.
Qed.

Lemma render_fields (prev s : State) :
  score (render prev s) = score s
  /\ currentStreak (render prev s) = currentStreak s
  /\ bestStreak (render prev s) = bestStreak s
  /\ wrongRows (render prev s) = wrongRows s
  /\ qcmAnswered (render prev s) = qcmAnswered s
  /\ mode (render prev s) = mode s.
Proof.
  unfold render. destruct (_ && _); [now repeat split|apply computeList_fields].
Qed.

Lemma render_same (s : State) : render s s = s.
Proof. unfold render. now rewrite !bool_decide_eq_true_2. Qed.

Lemma addWrong_fields (c : Vocab) (s : State) :
  score (addWrong c s) = score s
  /\ currentStreak (addWrong c s) = currentStreak s
  /\ bestStreak (addWrong c s) = bestStreak s
  /\ index (addWrong c s) = index s
  /\ list_ (addWrong c s) = list_ s
  /\ qcmAnswered (addWrong c s) = qcmAnswered s.
Proof. unfold addWrong. destruct (existsb _ _); now repeat split. Qed.

Lemma scoreAnswer_effects (verdict : bool) (cur : option Vocab) (s : State) :
  scoringEffects verdict s (scoreAnswer (Some verdict) cur s).
Proof.
  unfold scoringEffects, scoreAnswer.
  destruct cur as [c|], verdict; cbn [truthy];
    rewrite ?(proj1 (addWrong_fields _ _)),
            ?(proj1 (proj2 (addWrong_fields _ _))),
            ?(proj1 (proj2 (proj2 (addWrong_fields _ _))));
    simpl; repeat split; lia.
Qed.

(** C1.  A submission with a Boolean verdict adds one to [score.total], adds
    one to [score.good] exactly on a correct verdict, sets the streak to its
    successor on a correct verdict and to zero on an incorrect one, and sets
    the best streak to the larger of its old value and the new streak; in
    both versions of [nextCard]. *)
Theorem nextCard_scoring (verdict : bool) (s : State) :
  scoringEffects verdict s (Trainer.nextCard (Some verdict) s)
  /\ scoringEffects verdict s (LudyEnglish.nextCard (Some verdict) s).
Proof.
  pose proof (scoreAnswer_effects verdict (current s) s) as HL.
  pose proof (scoreAnswer_effects verdict (current s)
                (setLastAnswerCorrect (Some verdict) s)) as HT.
  split.
  - unfold Trainer.nextCard. destruct (bool_decide (mode s = qcm)); exact HT.
  - exact HL.
Qed.

(** ** The scoring invariant *)

Lemma scoreAnswer_invariant (correct : option bool) (cur : option Vocab) (s : State) :
  scoringInvariant s -> scoringInvariant (scoreAnswer correct cur s).
Proof.
  unfold scoringInvariant, scoreAnswer. intros [Hg Hs].
  destruct cur as [c|], (truthy correct);
    rewrite ?(proj1 (addWrong_fields _ _)),
            ?(proj1 (proj2 (addWrong_fields _ _))),
            ?(proj1 (proj2 (proj2 (addWrong_fields _ _))));
    simpl; lia.
Qed.

(** Setters of the cells that hold no score leave the invariant alone. *)
Ltac invariant_by_fields :=
  unfold scoringInvariant in *; simpl in *; try lia; try tauto.

Lemma trainer_nextCard_invariant (correct : option bool) (s : State) :
  scoringInvariant s -> scoringInvariant (Trainer.nextCard correct s).
Proof.
  intros H. unfold Trainer.nextCard.
  assert (H' : scoringInvariant (scoreAnswer correct (current s)
                                   (setLastAnswerCorrect correct s))).
  { apply scoreAnswer_invariant. invariant_by_fields. }
  destruct (bool_decide (mode s = qcm)); invariant_by_fields.
Qed.

Lemma ludy_nextCard_invariant (correct : option bool) (s : State) :
  scoringInvariant s -> scoringInvariant (LudyEnglish.nextCard correct s).
Proof.
  intros H. unfold LudyEnglish.nextCard.
  pose proof (scoreAnswer_invariant correct (current s) s H).
  invariant_by_fields.
Qed.

Lemma render_invariant (prev s : State) :
  scoringInvariant s -> scoringInvariant (render prev s).
Proof.
  unfold scoringInvariant.
  destruct (render_fields prev s) as (-> & -> & -> & _). auto.
Qed.

Lemma trainer_advance_invariant (t : Timer) (s : State) :
  scoringInvariant s -> scoringInvariant (Trainer.advance t s).
Proof.
  intros H. unfold Trainer.advance. destruct (t_qcm t); invariant_by_fields.
Qed.

Lemma trainer_handle_invariant (e : Event) (s : State) :
  scoringInvariant s -> scoringInvariant (Trainer.handle e s).
Proof.
  intros H.
  destruct e; cbn [Trainer.handle];
    unfold Trainer.handleAnswerSubmit, Trainer.qcmClick, Trainer.resetSession;
    repeat case_match; try assumption;
    try (apply trainer_nextCard_invariant);
    try (apply trainer_advance_invariant);
    invariant_by_fields.
Qed.

Lemma ludy_handle_invariant (e : Event) (s : State) :
  scoringInvariant s -> scoringInvariant (LudyEnglish.handle e s).
Proof.
  intros H.
  destruct e; cbn [LudyEnglish.handle];
    unfold LudyEnglish.handleAnswerSubmit, LudyEnglish.qcmClick, LudyEnglish.resetSession;
    repeat case_match; try assumption;
    try (apply ludy_nextCard_invariant);
    invariant_by_fields.
Qed.

Lemma trainer_run_invariant (es : list Event) (s : State) :
  scoringInvariant s -> scoringInvariant (Trainer.run es s).
Proof.
  revert s. induction es as [|e es IH]; intros s H; [exact H|].
  apply IH, render_invariant, trainer_handle_invariant, H.
Qed.

Lemma ludy_run_invariant (es : list Event) (s : State) :
  scoringInvariant s -> scoringInvariant (LudyEnglish.run es s).
Proof.
  revert s. induction es as [|e es IH]; intros s H; [exact H|].
  apply IH, render_invariant, ludy_handle_invariant, H.
Qed.

(** C4.  From the mounted component, whatever the stored preferences and
    best streak, and after any sequence of events (submissions in the three
    modes, resets, changes of mode, direction, scope or shuffle, navigation,
    imports, timeouts), [score.good ≤ score.total] and
    [currentStreak ≤ bestStreak]; in both versions of the component. *)
Theorem scoring_invariant (storedMode : Mode) (storedDirection : Direction)
    (storedBest : nat) (storedShuffle : bool) (g : Rng) (es : list Event) :
  scoringInvariant
    (Trainer.run es (Trainer.initial storedMode storedDirection storedBest storedShuffle g))
  /\ scoringInvariant
       (LudyEnglish.run es
          (LudyEnglish.initial storedMode storedDirection storedBest storedShuffle g)).
Proof.
  split.
  - apply trainer_run_invariant, render_invariant. invariant_by_fields.
  - apply ludy_run_invariant, render_invariant. invariant_by_fields.
Qed.

(** ** The mistake list *)

(** The key depends on the pair (EN, FR) alone. *)
Lemma key_same_pair (v w : Vocab) : EN v = EN w -> FR v = FR w -> key v = key w.
Proof. unfold key. now intros -> ->. Qed.

(** After [addWrong] the list holds an entry with the key of the current
    entry, its keys are still pairwise distinct, and nothing was removed. *)
Lemma addWrong_member_by_key (c : Vocab) (s : State) :
  exists v : Vocab, v ∈ items (wrongRows (addWrong c s)) /\ key v = key c.
Proof.
  unfold addWrong. destruct (existsb _ _) eqn:E.
  - apply existsb_exists in E as (v & Hin & Hk).
    exists v. split; [now apply list_elem_of_In|].
    now apply bool_decide_eq_true in Hk.
  - exists c. split; [|reflexivity]. simpl. apply elem_of_app. right. now left.
Qed.

Lemma addWrong_NoDup_keys (c : Vocab) (s : State) :
  NoDup (map key (items (wrongRows s))) ->
  NoDup (map key (items (wrongRows (addWrong c s)))).
Proof.
  intros Hnd. unfold addWrong. destruct (existsb _ _) eqn:E; [exact Hnd|].
  simpl. rewrite map_app. apply NoDup_app. split; [exact Hnd|split].
  - intros k Hk Hk'. apply list_elem_of_fmap in Hk as (v & -> & Hv).
    simpl in Hk'. apply list_elem_of_singleton in Hk'.
    assert (existsb (fun v => bool_decide (key v = key c)) (items (wrongRows s)) = true);
      [|congruence].
    apply existsb_exists. exists v. split; [now apply list_elem_of_In|].
    now apply bool_decide_eq_true.
  - apply NoDup_singleton.
Qed.

Lemma addWrong_prefix (c : Vocab) (s : State) :
  items (wrongRows s) `prefix_of` items (wrongRows (addWrong c s)).
Proof.
  unfold addWrong. destruct (existsb _ _); [reflexivity|].
  simpl. now apply prefix_app_r.
Qed.

(** EN and FR of the colliding pair below are what [normalizeRow] makes of
    the records [a__b;c] and [a;b__c]. *)
Example collision_rows :
  omap normalizeRow [Some [("EN", "a__b"); ("FR", "c"); ("EG", "")];
                     Some [("EN", "a"); ("FR", "b__c"); ("EG", "")]]
  = [mkVocab "a__b" "c" (Some ""); mkVocab "a" "b__c" (Some "")].
Proof. reflexivity. Qed.

(** C2, at its failing input.  The entries (a__b, c) and (a, b__c) differ in
    both fields and share the key [a__b__c].  With both imported and both
    answered "Je reverrai", the second is the current entry of the second
    submission and is not in the mistake list afterwards, which holds the
    first entry only; in both versions of the component. *)
Theorem wrongRows_key_collision :
  key (mkVocab "a__b" "c" (Some "")) = key (mkVocab "a" "b__c" (Some ""))
  /\ (let s1 := Trainer.run
                  [EvImport [mkVocab "a__b" "c" (Some ""); mkVocab "a" "b__c" (Some "")];
                   EvReview; EvTimeout 0]
                  (Trainer.initial flashcards FR_EN 0 false (fun _ => mkUnit01 0 0)) in
      current s1 = Some (mkVocab "a" "b__c" (Some ""))
      /\ items (wrongRows (Trainer.step s1 EvReview)) = [mkVocab "a__b" "c" (Some "")]
      /\ mkVocab "a" "b__c" (Some "") ∉ items (wrongRows (Trainer.step s1 EvReview)))
  /\ (let s1 := LudyEnglish.run
                  [EvImport [mkVocab "a__b" "c" (Some ""); mkVocab "a" "b__c" (Some "")];
                   EvReview]
                  (LudyEnglish.initial flashcards FR_EN 0 false (fun _ => mkUnit01 0 0)) in
      current s1 = Some (mkVocab "a" "b__c" (Some ""))
      /\ items (wrongRows (LudyEnglish.step s1 EvReview)) = [mkVocab "a__b" "c" (Some "")]
      /\ mkVocab "a" "b__c" (Some "") ∉ items (wrongRows (LudyEnglish.step s1 EvReview))).
Proof.
  split; [reflexivity|].
  split; (split; [reflexivity|split; [reflexivity|]]);
    intros Hin; apply list_elem_of_singleton in Hin; discriminate.
Qed.

Lemma scoreAnswer_wrongRows (correct : option bool) (cur : option Vocab) (s : State) :
  items (wrongRows (scoreAnswer correct cur s))
  = match cur with
    | Some c => if truthy correct then items (wrongRows s)
                else items (wrongRows (addWrong c s))
    | None => items (wrongRows s)
    end.
Proof.
  unfold scoreAnswer. destruct cur as [c|], (truthy correct); try reflexivity.
  unfold addWrong. simpl. now destruct (existsb _ _).
Qed.

Lemma addWrong_items_ext (c : Vocab) (s s' : State) :
  items (wrongRows s) = items (wrongRows s') ->
  items (wrongRows (addWrong c s)) = items (wrongRows (addWrong c s')).
Proof.
  intros H. unfold addWrong. rewrite H. destruct (existsb _ _); simpl; congruence.
Qed.

Lemma trainer_nextCard_wrongRows (correct : option bool) (s : State) :
  items (wrongRows (Trainer.nextCard correct s))
  = match current s with
    | Some c => if truthy correct then items (wrongRows s)
                else items (wrongRows (addWrong c s))
    | None => items (wrongRows s)
    end.
Proof.
  unfold Trainer.nextCard. cbn [set_timers wrongRows].
  destruct (bool_decide (mode s = qcm)); cbn [setSelectedQcmOption setQcmAnswered wrongRows];
    rewrite scoreAnswer_wrongRows;
    destruct (current s); try reflexivity;
    destruct (truthy correct); try reflexivity;
    now apply addWrong_items_ext.
Qed.

Lemma ludy_nextCard_wrongRows (correct : option bool) (s : State) :
  items (wrongRows (LudyEnglish.nextCard correct s))
  = match current s with
    | Some c => if truthy correct then items (wrongRows s)
                else items (wrongRows (addWrong c s))
    | None => items (wrongRows s)
    end.
Proof.
  unfold LudyEnglish.nextCard. cbn [setIndex setAnswer setShowBack wrongRows].
  apply scoreAnswer_wrongRows.
Qed.

Lemma nextCard_wrongRowsChange (e : Event) (s s' : State) (correct : option bool) :
  items (wrongRows s')
  = match current s with
    | Some c => if truthy correct then items (wrongRows s)
                else items (wrongRows (addWrong c s))
    | None => items (wrongRows s)
    end ->
  wrongRowsChange e s s'.
Proof.
  unfold wrongRowsChange. intros ->.
  destruct (current s) as [c|]; [|now right; left].
  destruct (truthy correct); [now right; left|].
  right; right. now exists c.
Qed.

Lemma trainer_qcmClick_wrongRows (opt : string) (cur : Vocab) (s : State) :
  wrongRowsChange (EvQcmClick opt) s (Trainer.qcmClick opt cur s).
Proof.
  unfold Trainer.qcmClick. destruct (qcmAnswered s); [now right; left|].
  set (s2 := setQcmAnswered true (setSelectedQcmOption (Some opt) s)).
  set (b := bool_decide (opt = target (direction s) cur)).
  apply (nextCard_wrongRowsChange _ s _ (Some b)).
  rewrite trainer_nextCard_wrongRows.
  change (current s2) with (current s).
  destruct (current s); [|reflexivity].
  destruct (truthy (Some b)); [reflexivity|].
  now apply addWrong_items_ext.
Qed.

Lemma trainer_handle_wrongRows (e : Event) (s : State) :
  wrongRowsChange e s (Trainer.handle e s).
Proof.
  destruct e; cbn [Trainer.handle];
    unfold Trainer.handleAnswerSubmit, Trainer.resetSession, Trainer.advance;
    repeat case_match;
    try (now right; left);
    try (apply trainer_qcmClick_wrongRows);
    try (eapply nextCard_wrongRowsChange, trainer_nextCard_wrongRows).
  left. split; [now eexists|reflexivity].
Qed.

Lemma ludy_handle_wrongRows (e : Event) (s : State) :
  wrongRowsChange e s (LudyEnglish.handle e s).
Proof.
  destruct e; cbn [LudyEnglish.handle];
    unfold LudyEnglish.handleAnswerSubmit, LudyEnglish.qcmClick,
      LudyEnglish.resetSession;
    repeat case_match;
    try (now right; left);
    try (eapply nextCard_wrongRowsChange, ludy_nextCard_wrongRows).
  left. split; [now eexists|reflexivity].
Qed.

Lemma wrongRowsChange_NoDup (e : Event) (s s' : State) :
  wrongRowsChange e s s' ->
  NoDup (map key (items (wrongRows s))) -> NoDup (map key (items (wrongRows s'))).
Proof.
  intros [[_ ->]|[->|(c & _ & ->)]] Hnd;
    [constructor|exact Hnd|now apply addWrong_NoDup_keys].
Qed.

Lemma wrongRowsChange_prefix (e : Event) (s s' : State) :
  wrongRowsChange e s s' ->
  (forall parsed, e ≠ EvImport parsed) ->
  items (wrongRows s) `prefix_of` items (wrongRows s').
Proof.
  intros [[[parsed ->] _]|[->|(c & _ & ->)]] Hne;
    [now destruct (Hne parsed)|reflexivity|apply addWrong_prefix].
Qed.

(** The parts of C2 that hold: the keys of the mistake list, hence its
    (EN, FR) pairs, are pairwise distinct after any run, and an event other
    than an import only extends the list. *)
Lemma wrongRows_NoDup_keys (storedMode : Mode) (storedDirection : Direction)
    (storedBest : nat) (storedShuffle : bool) (g : Rng) (es : list Event) :
  NoDup (map key (items (wrongRows
    (Trainer.run es (Trainer.initial storedMode storedDirection storedBest storedShuffle g)))))
  /\ NoDup (map key (items (wrongRows
       (LudyEnglish.run es
          (LudyEnglish.initial storedMode storedDirection storedBest storedShuffle g))))).
Proof.
  split.
  - set (s0 := Trainer.initial _ _ _ _ _).
    assert (H0 : NoDup (map key (items (wrongRows s0)))).
    { unfold s0, Trainer.initial.
      rewrite (proj1 (proj2 (proj2 (proj2 (render_fields _ _))))). constructor. }
    clearbody s0. revert s0 H0.
    induction es as [|e es IH]; intros s0 H0; [exact H0|].
    apply IH. unfold Trainer.step.
    rewrite (proj1 (proj2 (proj2 (proj2 (render_fields _ _))))).
    eapply wrongRowsChange_NoDup; [apply trainer_handle_wrongRows|exact H0].
  - set (s0 := LudyEnglish.initial _ _ _ _ _).
    assert (H0 : NoDup (map key (items (wrongRows s0)))).
    { unfold s0, LudyEnglish.initial.
      rewrite (proj1 (proj2 (proj2 (proj2 (render_fields _ _))))). constructor. }
    clearbody s0. revert s0 H0.
    induction es as [|e es IH]; intros s0 H0; [exact H0|].
    apply IH. unfold LudyEnglish.step.
    rewrite (proj1 (proj2 (proj2 (proj2 (render_fields _ _))))).
    eapply wrongRowsChange_NoDup; [apply ludy_handle_wrongRows|exact H0].
Qed.

Lemma wrongRows_only_grow (e : Event) (s : State) :
  (forall parsed, e ≠ EvImport parsed) ->
  items (wrongRows s) `prefix_of` items (wrongRows (Trainer.step s e))
  /\ items (wrongRows s) `prefix_of` items (wrongRows (LudyEnglish.step s e)).
Proof.
  intros Hne. unfold Trainer.step, LudyEnglish.step.
  rewrite !(proj1 (proj2 (proj2 (proj2 (render_fields _ _))))).
  split; eapply wrongRowsChange_prefix; eauto using trainer_handle_wrongRows,
    ludy_handle_wrongRows.
Qed.

(** ** The answered-lock of the multiple-choice mode *)






(** ** The writing mode *)











Example writing_scenario_correct :
  let s := Trainer.run
             [EvImport [mkVocab "cat" "chat" (Some ""); mkVocab "dog" "chien" (Some "")];
              EvType "cat"; EvSubmit]
             (Trainer.initial writing FR_EN 0 false (fun _ => mkUnit01 0 0)) in
  score s = mkScore 1 1 /\ currentStreak s = 1 /\ items (wrongRows s) = [].
Proof. repeat split. Qed.

Example writing_scenario_typo :
  let s := Trainer.run
             [EvImport [mkVocab "cat" "chat" (Some ""); mkVocab "dog" "chien" (Some "")];
              EvType "catt"; EvSubmit]
             (Trainer.initial writing FR_EN 0 false (fun _ => mkUnit01 0 0)) in
  score s = mkScore 0 1 /\ currentStreak s = 0
  /\ items (wrongRows s) = [mkVocab "cat" "chat" (Some "")].
Proof. repeat split. Qed.

(** ** The derived percentages *)

(** C10.  The accuracy is 0 when [score.total] is 0 and the progress is 0
    when the working list is empty, and neither depends on what the rounded
    division would give for a zero divisor: the division is reached with a
    divisor that is not zero only. *)
Theorem percentages_guarded (roundPct : nat -> nat -> Z) (atZero : Z) (s : State) :
  (total (score s) = 0 -> accuracy roundPct s = 0%Z)
  /\ (list_ s = [] -> progress roundPct s = 0%Z)
  /\ accuracy (guarded roundPct atZero) s = accuracy roundPct s
  /\ progress (guarded roundPct atZero) s = progress roundPct s.
Proof.
  unfold accuracy, progress, guarded. repeat split.
  - now intros ->.
  - now intros ->.
  - destruct (total (score s)) as [|n] eqn:E; [reflexivity|].
    cbn [Nat.eqb]. now destruct (Nat.max_spec (S n) 1) as [[_ ->]|[_ ->]].
  - destruct (length (list_ s)) as [|n]; reflexivity.
Qed.

(** * Further properties of the sources *)

(** ** clamp and navigation *)

(** X1.  With [min ≤ max], [clamp] lands between the two bounds and leaves
    alone exactly the numbers already between them; clamping twice is
    clamping once. *)
Theorem clamp_bounds (n lo hi : Z) :
  (lo <= hi)%Z ->
  (lo <= clamp n lo hi <= hi)%Z
  /\ (clamp n lo hi = n <-> (lo <= n <= hi)%Z)
  /\ clamp (clamp n lo hi) lo hi = clamp n lo hi.
Proof. unfold clamp. lia. Qed.

Lemma clamp_bounds_witness :
  (0 <= 5)%Z /\ (0 <= clamp 10 0 5 <= 5)%Z /\ clamp 10 0 5 = 5%Z.
Proof.
  split; [lia|].
  destruct (clamp_bounds 10 0 5 ltac:(lia)) as (Hb & _ & _).
  split; [exact Hb|reflexivity].
Defined.

Lemma lastIndex_nonneg (len : nat) : (0 <= lastIndex len)%Z.
Proof. unfold lastIndex. lia. Qed.

Lemma clamp_index (i : Z) (len : nat) :
  Z.to_nat (clamp i 0 (lastIndex len)) <= len - 1.
Proof. unfold clamp, lastIndex. lia. Qed.

(** X2.  [jumpTo] never leaves the list: the new index is at most
    [list.length - 1] (0 for an empty list) and is [i] itself when [i] is an
    index of the list; the score, the streaks and the mistake list are as
    before; jumping twice to the same place is jumping once.  In both
    versions. *)
Theorem jumpTo_clamps (i : Z) (s : State) :
  (index (Trainer.jumpTo i s) <= length (list_ s) - 1
   /\ index (LudyEnglish.jumpTo i s) <= length (list_ s) - 1)
  /\ (forall k : nat, k < length (list_ s) ->
        index (Trainer.jumpTo (Z.of_nat k) s) = k
        /\ index (LudyEnglish.jumpTo (Z.of_nat k) s) = k)
  /\ (score (Trainer.jumpTo i s) = score s
      /\ currentStreak (Trainer.jumpTo i s) = currentStreak s
      /\ bestStreak (Trainer.jumpTo i s) = bestStreak s
      /\ wrongRows (Trainer.jumpTo i s) = wrongRows s)
  /\ (score (LudyEnglish.jumpTo i s) = score s
      /\ currentStreak (LudyEnglish.jumpTo i s) = currentStreak s
      /\ bestStreak (LudyEnglish.jumpTo i s) = bestStreak s
      /\ wrongRows (LudyEnglish.jumpTo i s) = wrongRows s)
  /\ Trainer.jumpTo i (Trainer.jumpTo i s) = Trainer.jumpTo i s
  /\ LudyEnglish.jumpTo i (LudyEnglish.jumpTo i s) = LudyEnglish.jumpTo i s.
Proof.
  split; [|split; [|split; [|split; [|split]]]]; try (now repeat split).
  - split; apply clamp_index.
  - intros k Hk. unfold Trainer.jumpTo, LudyEnglish.jumpTo. simpl.
    unfold clamp, lastIndex. split; lia.
Qed.

(** ** Invariants of the component *)

Ltac unfold_handlers :=
  unfold Trainer.handle, LudyEnglish.handle,
    Trainer.handleAnswerSubmit, LudyEnglish.handleAnswerSubmit,
    Trainer.qcmClick, LudyEnglish.qcmClick,
    Trainer.nextCard, LudyEnglish.nextCard,
    Trainer.advance, Trainer.jumpTo, LudyEnglish.jumpTo,
    Trainer.resetSession, LudyEnglish.resetSession,
    Trainer.hardResetProgress, LudyEnglish.hardResetProgress,
    rowsEffect, replaceRows, scoreAnswer, addWrong.

Lemma run_invariant (P : State -> Prop) (step : State -> Event -> State)
    (es : list Event) (s : State) :
  (forall s e, P s -> P (step s e)) -> P s -> P (foldl step s es).
Proof.
  intros Hstep. revert s. induction es as [|e es IH]; intros s Hs; [exact Hs|].
  apply IH, Hstep, Hs.
Qed.

(** No handler writes the memoised list; only the shuffle button changes
    the shuffle flag. *)
Lemma handle_list (e : Event) (s : State) :
  (list_ (Trainer.handle e s) = list_ s
   /\ shuffleOn (Trainer.handle e s)
      = match e with EvToggleShuffle => negb (shuffleOn s) | _ => shuffleOn s end)
  /\ (list_ (LudyEnglish.handle e s) = list_ s
      /\ shuffleOn (LudyEnglish.handle e s)
         = match e with EvToggleShuffle => negb (shuffleOn s) | _ => shuffleOn s end).
Proof.
  destruct e; unfold_handlers; repeat case_match; simpl; auto.
Qed.

Lemma computeList_arrays (s : State) :
  rows (computeList s) = rows s
  /\ trainingRows (computeList s) = trainingRows s
  /\ nextRef (computeList s) = nextRef s
  /\ shuffleOn (computeList s) = shuffleOn s
  /\ index (computeList s) = index s.
Proof.
  unfold computeList. destruct (shuffleOn s) eqn:E.
  - destruct (shuffle _ _). simpl. now rewrite E.
  - simpl. now rewrite E.
Qed.

Lemma render_arrays (prev s : State) :
  rows (render prev s) = rows s
  /\ trainingRows (render prev s) = trainingRows s
  /\ nextRef (render prev s) = nextRef s
  /\ shuffleOn (render prev s) = shuffleOn s
  /\ index (render prev s) = index s.
Proof.
  unfold render. destruct (_ && _); [now repeat split|apply computeList_arrays].
Qed.

Lemma render_refsOk (prev s : State) : refsOk s -> refsOk (render prev s).
Proof.
  unfold refsOk.
  destruct (render_arrays prev s) as (-> & -> & -> & _).
  now rewrite (proj1 (proj2 (proj2 (proj2 (render_fields prev s))))).
Qed.

Lemma handle_refsOk (e : Event) (s : State) :
  refsOk s -> refsOk (Trainer.handle e s) /\ refsOk (LudyEnglish.handle e s).
Proof.
  unfold refsOk. intros (Hr & Ht & Hw & Hrw & Htr & Htw).
  destruct e; unfold_handlers; repeat case_match; simpl;
    repeat split; try lia; try tauto; try (intros; lia); try congruence.
Qed.

Lemma computeList_listOk (s : State) : listOk (computeList s).
Proof.
  unfold listOk, computeList. destruct (shuffleOn s) eqn:E.
  - pose proof (shuffle_perm (items (trainingRows s)) (rng s)) as Hp.
    destruct (shuffle _ _) as [l g']. simpl in *. split; [exact Hp|congruence].
  - simpl. split; [reflexivity|auto].
Qed.

Lemma render_listOk (prev s : State) :
  listOk prev ->
  list_ s = list_ prev ->
  (ref (trainingRows prev) = ref (trainingRows s) -> trainingRows s = trainingRows prev) ->
  listOk (render prev s).
Proof.
  intros [Hp Hoff] Hl Href. unfold render.
  destruct (bool_decide (ref (trainingRows prev) = ref (trainingRows s))) eqn:E1;
    [|apply computeList_listOk].
  destruct (bool_decide (shuffleOn prev = shuffleOn s)) eqn:E2;
    [|apply computeList_listOk].
  apply bool_decide_eq_true in E1, E2. simpl.
  unfold listOk. rewrite Hl, (Href E1), <- E2. now split.
Qed.

(** Which array a handler leaves in [trainingRows]. *)
Lemma handle_trainingRows (e : Event) (s : State) :
  (trainingRows (Trainer.handle e s) = trainingRows s
   \/ trainingRows (Trainer.handle e s) = rows s
   \/ trainingRows (Trainer.handle e s) = wrongRows s
   \/ ref (trainingRows (Trainer.handle e s)) = nextRef s)
  /\ (trainingRows (LudyEnglish.handle e s) = trainingRows s
      \/ trainingRows (LudyEnglish.handle e s) = rows s
      \/ trainingRows (LudyEnglish.handle e s) = wrongRows s
      \/ ref (trainingRows (LudyEnglish.handle e s)) = nextRef s).
Proof.
  destruct e; unfold_handlers; repeat case_match; simpl; auto.
Qed.

Lemma step_memo (e : Event) (s : State) :
  refsOk s /\ listOk s ->
  (refsOk (Trainer.step s e) /\ listOk (Trainer.step s e))
  /\ (refsOk (LudyEnglish.step s e) /\ listOk (LudyEnglish.step s e)).
Proof.
  intros [Hrefs Hlist].
  destruct (handle_refsOk e s Hrefs) as [HT HL].
  destruct (handle_list e s) as [[HlT _] [HlL _]].
  destruct (handle_trainingRows e s) as [HtT HtL].
  destruct Hrefs as (Hr & Ht & Hw & Hrw & Htr & Htw).
  unfold Trainer.step, LudyEnglish.step.
  split; (split; [now apply render_refsOk|]);
    (apply render_listOk; [exact Hlist|assumption|]); intros Href.
  - destruct HtT as [H|[H|[H|H]]]; rewrite H in *; auto; try lia.
    + symmetry. now apply Htr.
    + symmetry. now apply Htw.
  - destruct HtL as [H|[H|[H|H]]]; rewrite H in *; auto; try lia.
    + symmetry. now apply Htr.
    + symmetry. now apply Htw.
Qed.

Lemma initial_memo (m : Mode) (d : Direction) (best : nat) (sh : bool) (g : Rng) :
  (refsOk (Trainer.initial m d best sh g) /\ listOk (Trainer.initial m d best sh g))
  /\ (refsOk (LudyEnglish.initial m d best sh g)
      /\ listOk (LudyEnglish.initial m d best sh g)).
Proof.
  unfold Trainer.initial, LudyEnglish.initial.
  split; (split; [apply render_refsOk; unfold refsOk; simpl; repeat split; lia|]).
  - unfold render. simpl. apply computeList_listOk.
  - unfold render. simpl. apply computeList_listOk.
Qed.

Lemma run_memo (m : Mode) (d : Direction) (best : nat) (sh : bool) (g : Rng)
    (es : list Event) :
  (refsOk (Trainer.run es (Trainer.initial m d best sh g))
   /\ listOk (Trainer.run es (Trainer.initial m d best sh g)))
  /\ (refsOk (LudyEnglish.run es (LudyEnglish.initial m d best sh g))
      /\ listOk (LudyEnglish.run es (LudyEnglish.initial m d best sh g))).
Proof.
  destruct (initial_memo m d best sh g) as [HT HL]. split.
  - apply (run_invariant (fun s => refsOk s /\ listOk s)); [|exact HT].
    intros s e H. apply (step_memo e s H).
  - apply (run_invariant (fun s => refsOk s /\ listOk s)); [|exact HL].
    intros s e H. apply (step_memo e s H).
Qed.

(** X3.  After any run of either version, the working list holds the
    entries of the training list, each as many times, and holds them in the
    same order while shuffling is off. *)
Theorem working_list_is_training_list (m : Mode) (d : Direction) (best : nat)
    (sh : bool) (g : Rng) (es : list Event) :
  (let s := Trainer.run es (Trainer.initial m d best sh g) in
   list_ s ≡ₚ items (trainingRows s)
   /\ (shuffleOn s = false -> list_ s = items (trainingRows s)))
  /\ (let s := LudyEnglish.run es (LudyEnglish.initial m d best sh g) in
      list_ s ≡ₚ items (trainingRows s)
      /\ (shuffleOn s = false -> list_ s = items (trainingRows s))).
Proof.
  destruct (run_memo m d best sh g es) as [[_ HT] [_ HL]]. split; assumption.
Qed.

Lemma current_elem (s : State) (c : Vocab) : current s = Some c -> c ∈ list_ s.
Proof. unfold current. intros H. apply list_elem_of_lookup. eauto. Qed.

Lemma handle_fromRows (e : Event) (s : State) :
  listOk s -> fromRows s ->
  fromRows (Trainer.handle e s) /\ fromRows (LudyEnglish.handle e s).
Proof.
  intros [Hperm _] [Hw Ht].
  assert (Hcur : forall c, list_ s !! index s = Some c -> c ∈ items (rows s)).
  { intros c Hc. apply Ht. rewrite <- Hperm. now apply (current_elem s c). }
  unfold fromRows.
  destruct e; unfold_handlers; unfold current in *; repeat case_match; simpl in *;
    repeat split; try assumption; try reflexivity;
    try (intros x Hx; now apply elem_of_nil in Hx);
    (intros x Hx; apply elem_of_app in Hx as [Hx|Hx];
     [now apply Hw
     |apply list_elem_of_singleton in Hx; subst;
      apply Hcur; congruence]).
Qed.

Lemma step_fromRows (e : Event) (s : State) :
  listOk s -> fromRows s ->
  fromRows (Trainer.step s e) /\ fromRows (LudyEnglish.step s e).
Proof.
  intros Hl Hf. destruct (handle_fromRows e s Hl Hf) as [HT HL].
  unfold Trainer.step, LudyEnglish.step, fromRows.
  rewrite !(proj1 (render_arrays _ _)), !(proj1 (proj2 (render_arrays _ _))),
    !(proj1 (proj2 (proj2 (proj2 (render_fields _ _))))).
  split; assumption.
Qed.

(** X4.  After any run of either version, every entry of the mistake list,
    of the training list and of the working list is an entry of the rows
    last imported. *)
Theorem entries_come_from_rows (m : Mode) (d : Direction) (best : nat)
    (sh : bool) (g : Rng) (es : list Event) :
  (let s := Trainer.run es (Trainer.initial m d best sh g) in
   items (wrongRows s) ⊆ items (rows s)
   /\ items (trainingRows s) ⊆ items (rows s)
   /\ list_ s ⊆ items (rows s))
  /\ (let s := LudyEnglish.run es (LudyEnglish.initial m d best sh g) in
      items (wrongRows s) ⊆ items (rows s)
      /\ items (trainingRows s) ⊆ items (rows s)
      /\ list_ s ⊆ items (rows s)).
Proof.
  destruct (initial_memo m d best sh g) as [[HrT HlT] [HrL HlL]].
  split.
  - assert (H : let s := Trainer.run es (Trainer.initial m d best sh g) in
                (refsOk s /\ listOk s) /\ fromRows s).
    { apply (run_invariant (fun s => (refsOk s /\ listOk s) /\ fromRows s)).
      - intros s e [Hmemo Hf]. split; [apply (step_memo e s Hmemo)|].
        apply (step_fromRows e s); tauto.
      - split; [now split|]. unfold Trainer.initial, fromRows.
        rewrite !(proj1 (render_arrays _ _)), !(proj1 (proj2 (render_arrays _ _))),
          !(proj1 (proj2 (proj2 (proj2 (render_fields _ _))))).
        simpl. split; intros x Hx; now apply elem_of_nil in Hx. }
    destruct H as [[_ [Hp _]] [Hw Ht]]. repeat split; try assumption.
    intros x Hx. apply Ht. now rewrite <- Hp.
  - assert (H : let s := LudyEnglish.run es (LudyEnglish.initial m d best sh g) in
                (refsOk s /\ listOk s) /\ fromRows s).
    { apply (run_invariant (fun s => (refsOk s /\ listOk s) /\ fromRows s)).
      - intros s e [Hmemo Hf]. split; [apply (step_memo e s Hmemo)|].
        apply (step_fromRows e s); tauto.
      - split; [now split|]. unfold LudyEnglish.initial, fromRows.
        rewrite !(proj1 (render_arrays _ _)), !(proj1 (proj2 (render_arrays _ _))),
          !(proj1 (proj2 (proj2 (proj2 (render_fields _ _))))).
        simpl. split; intros x Hx; now apply elem_of_nil in Hx. }
    destruct H as [[_ [Hp _]] [Hw Ht]]. repeat split; try assumption.
    intros x Hx. apply Ht. now rewrite <- Hp.
Qed.

(** ** Streaks, scores and the end of a session *)

Lemma render_streakOk (prev s : State) : streakOk s -> streakOk (render prev s).
Proof.
  unfold streakOk. destruct (render_fields prev s) as (-> & -> & _). auto.
Qed.

Lemma handle_streakOk (e : Event) (s : State) :
  streakOk s -> streakOk (Trainer.handle e s) /\ streakOk (LudyEnglish.handle e s).
Proof.
  unfold streakOk. intros (H1 & H2 & H3).
  destruct e; unfold_handlers; repeat case_match; simpl; lia.
Qed.

Lemma run_streakOk (m : Mode) (d : Direction) (best : nat) (sh : bool) (g : Rng)
    (es : list Event) :
  streakOk (Trainer.run es (Trainer.initial m d best sh g))
  /\ streakOk (LudyEnglish.run es (LudyEnglish.initial m d best sh g)).
Proof.
  split.
  - apply (run_invariant streakOk Trainer.step).
    + intros s e H. apply render_streakOk, (handle_streakOk e s H).
    + apply render_streakOk. unfold streakOk. simpl. lia.
  - apply (run_invariant streakOk LudyEnglish.step).
    + intros s e H. apply render_streakOk, (handle_streakOk e s H).
    + apply render_streakOk. unfold streakOk. simpl. lia.
Qed.

(** X5.  After any run of either version the streak is at most the number
    of correct answers of the session, and it equals the number of answers
    as long as none of them was incorrect.  Hence, when the condition of the
    end-of-session confetti holds, the streak is the length of the list and
    the best streak is at least that. *)
Theorem session_perfect_streak (m : Mode) (d : Direction) (best : nat)
    (sh : bool) (g : Rng) (es : list Event) :
  (let s := Trainer.run es (Trainer.initial m d best sh g) in
   currentStreak s <= good (score s)
   /\ (good (score s) = total (score s) -> currentStreak s = total (score s))
   /\ (sessionPerfect s = true ->
       currentStreak s = length (list_ s) /\ length (list_ s) <= bestStreak s))
  /\ (let s := LudyEnglish.run es (LudyEnglish.initial m d best sh g) in
      currentStreak s <= good (score s)
      /\ (good (score s) = total (score s) -> currentStreak s = total (score s))
      /\ (sessionPerfect s = true ->
          currentStreak s = length (list_ s) /\ length (list_ s) <= bestStreak s)).
Proof.
  destruct (run_streakOk m d best sh g es) as [(T1 & T2 & T3) (L1 & L2 & L3)].
  assert (Tb : scoringInvariant (Trainer.run es (Trainer.initial m d best sh g))).
  { apply trainer_run_invariant, render_invariant. unfold scoringInvariant. simpl. lia. }
  assert (Lb : scoringInvariant (LudyEnglish.run es (LudyEnglish.initial m d best sh g))).
  { apply ludy_run_invariant, render_invariant. unfold scoringInvariant. simpl. lia. }
  destruct Tb as [_ Tb]. destruct Lb as [_ Lb].
  unfold sessionPerfect.
  split; (split; [assumption|split; [assumption|]]); intros Hp;
    apply andb_prop in Hp as [Hp Hg]; apply andb_prop in Hp as [_ Ht];
    apply Nat.eqb_eq in Hg, Ht; lia.
Qed.

(** X6.  The best streak survives everything: no event of either version
    lowers it, resets, imports and changes of mode included. *)
Theorem bestStreak_never_decreases (s : State) (e : Event) :
  bestStreak s <= bestStreak (Trainer.step s e)
  /\ bestStreak s <= bestStreak (LudyEnglish.step s e).
Proof.
  unfold Trainer.step, LudyEnglish.step.
  rewrite !(proj1 (proj2 (proj2 (render_fields _ _)))).
  destruct e; unfold_handlers; repeat case_match; simpl; lia.
Qed.

(** X7.  Only submissions score and only resets clear: an event that
    neither calls [nextCard] nor [hardResetProgress] (navigation, the
    advancing timeout, typing, revealing, the shuffle button) leaves score,
    streak, best streak and mistake list as they are, and an event that is
    not a reset lowers neither [score.total] nor [score.good].  In both
    versions. *)
Theorem only_submissions_score (s : State) (e : Event) :
  (resets e = false ->
   total (score s) <= total (score (Trainer.step s e))
   /\ good (score s) <= good (score (Trainer.step s e))
   /\ total (score s) <= total (score (LudyEnglish.step s e))
   /\ good (score s) <= good (score (LudyEnglish.step s e)))
  /\ (resets e = false -> submits e = false ->
      (score (Trainer.step s e) = score s
       /\ currentStreak (Trainer.step s e) = currentStreak s
       /\ bestStreak (Trainer.step s e) = bestStreak s
       /\ wrongRows (Trainer.step s e) = wrongRows s)
      /\ (score (LudyEnglish.step s e) = score s
          /\ currentStreak (LudyEnglish.step s e) = currentStreak s
          /\ bestStreak (LudyEnglish.step s e) = bestStreak s
          /\ wrongRows (LudyEnglish.step s e) = wrongRows s)).
Proof.
  unfold Trainer.step, LudyEnglish.step.
  destruct (render_fields s (Trainer.handle e s)) as (-> & -> & -> & -> & _).
  destruct (render_fields s (LudyEnglish.handle e s)) as (-> & -> & -> & -> & _).
  split.
  - intros Hr. destruct e; try discriminate Hr;
      unfold_handlers; repeat case_match; simpl; lia.
  - intros Hr Hs. destruct e; try discriminate Hr; try discriminate Hs;
      unfold_handlers; repeat case_match; simpl; now repeat split.
Qed.

(** ** The position in the list *)

Lemma ludy_handle_index (e : Event) (s : State) :
  index s <= length (list_ s) - 1 ->
  index (LudyEnglish.handle e s) = 0
  \/ (trainingRows (LudyEnglish.handle e s) = trainingRows s
      /\ index (LudyEnglish.handle e s) <= length (list_ s) - 1).
Proof.
  intros Hi.
  destruct e; unfold_handlers; repeat case_match; simpl; auto; right;
    (split; [reflexivity|]); try apply clamp_index.
Qed.

Lemma ludy_step_index (e : Event) (s : State) :
  (refsOk s /\ listOk s) /\ index s <= length (list_ s) - 1 ->
  index (LudyEnglish.step s e) <= length (list_ (LudyEnglish.step s e)) - 1.
Proof.
  intros [Hmemo Hi].
  destruct (step_memo e s Hmemo) as [_ [_ [Hp' _]]].
  destruct Hmemo as [_ [Hp _]].
  rewrite (Permutation_length Hp'). unfold LudyEnglish.step.
  rewrite (proj1 (proj2 (render_arrays _ _))),
    (proj2 (proj2 (proj2 (proj2 (render_arrays _ _))))).
  destruct (ludy_handle_index e s Hi) as [->|[-> Hle]]; [lia|].
  now rewrite <- (Permutation_length Hp).
Qed.

(** X8.  In the version that advances at once, the index is an index of the
    working list after any run: while the list is not empty there is a
    current entry. *)
Theorem ludy_current_defined (m : Mode) (d : Direction) (best : nat)
    (sh : bool) (g : Rng) (es : list Event) :
  let s := LudyEnglish.run es (LudyEnglish.initial m d best sh g) in
  index s <= length (list_ s) - 1
  /\ (list_ s ≠ [] -> is_Some (current s)).
Proof.
  intros s.
  assert (H : (refsOk s /\ listOk s) /\ index s <= length (list_ s) - 1).
  { apply (run_invariant
             (fun s => (refsOk s /\ listOk s) /\ index s <= length (list_ s) - 1)
             LudyEnglish.step).
    - intros s0 e H0. split; [apply (step_memo e s0 (proj1 H0))|].
      now apply ludy_step_index.
    - split; [apply initial_memo|].
      unfold LudyEnglish.initial.
      rewrite (proj2 (proj2 (proj2 (proj2 (render_arrays _ _))))). simpl. lia. }
  destruct H as [_ Hi]. split; [exact Hi|].
  intros Hne. apply lookup_lt_is_Some.
  destruct (list_ s); [congruence|simpl in *; lia].
Qed.

Lemma trainer_timeout_index (s : State) (k : nat) (t : Timer) :
  timers s !! k = Some t ->
  index (Trainer.step s (EvTimeout k))
  = Z.to_nat (clamp (Z.of_nat (index s) + 1) 0 (lastIndex (t_len t))).
Proof.
  intros Hk. unfold Trainer.step.
  rewrite (proj2 (proj2 (proj2 (proj2 (render_arrays _ _))))).
  cbn [Trainer.handle]. rewrite Hk. unfold Trainer.advance.
  now destruct (t_qcm t).
Qed.

(** X9.  In the version that advances from a timeout, the timeout clamps
    against the list length it captured when the answer was submitted, not
    against the list at hand: the new index is
    [min(index + 1, max(captured - 1, 0))].  A timeout scheduled on the full
    list and fired after "Erreurs uniquement" therefore leaves a list that is
    not empty without a current entry. *)
Theorem trainer_timeout_uses_captured_length (s : State) (k : nat) (t : Timer) :
  timers s !! k = Some t ->
  index (Trainer.step s (EvTimeout k))
  = Nat.min (index s + 1) (t_len t - 1)
  /\ (let s' := Trainer.run
                  [EvImport [mkVocab "cat" "chat" (Some ""); mkVocab "dog" "chien" (Some "")];
                   EvReview; EvWrongOnly; EvTimeout 0]
                  (Trainer.initial flashcards FR_EN 0 false (fun _ => mkUnit01 0 0)) in
      list_ s' = [mkVocab "cat" "chat" (Some "")] /\ index s' = 1 /\ current s' = None).
Proof.
  intros Hk. split; [|now repeat split].
  rewrite (trainer_timeout_index s k t Hk). unfold clamp, lastIndex. lia.
Qed.

Lemma trainer_timeout_uses_captured_length_witness :
  timers (Trainer.nextCard (Some true)
            (set_list [mkVocab "cat" "chat" None; mkVocab "dog" "chien" None]
               (useStateInit flashcards FR_EN 0 false (fun _ => mkUnit01 0 0)))) !! 0
  = Some (mkTimer false 2)
  /\ index (Trainer.step
              (Trainer.nextCard (Some true)
                 (set_list [mkVocab "cat" "chat" None; mkVocab "dog" "chien" None]
                    (useStateInit flashcards FR_EN 0 false (fun _ => mkUnit01 0 0))))
              (EvTimeout 0))
     = Nat.min (0 + 1) (2 - 1).
Proof.
  split; [reflexivity|].
  exact (proj1 (trainer_timeout_uses_captured_length
                  (Trainer.nextCard (Some true)
                     (set_list [mkVocab "cat" "chat" None; mkVocab "dog" "chien" None]
                        (useStateInit flashcards FR_EN 0 false (fun _ => mkUnit01 0 0))))
                  0 (mkTimer false 2) eq_refl)).
Defined.

(** ** Imports, scope and settings *)

(** A render after the training list was replaced by a new array. *)
Lemma render_new_training (prev s : State) :
  ref (trainingRows prev) ≠ ref (trainingRows s) ->
  render prev s = computeList s.
Proof.
  intros Hne. unfold render. now rewrite bool_decide_eq_false_2.
Qed.

Lemma render_kept (prev s : State) :
  trainingRows s = trainingRows prev -> shuffleOn s = shuffleOn prev ->
  render prev s = s.
Proof.
  intros Ht Hs. unfold render. rewrite Ht, Hs.
  now rewrite !bool_decide_eq_true_2.
Qed.

Lemma computeList_shape (s : State) :
  exists (l : list Vocab) (g' : Rng),
    computeList s = set_rng g' (set_list l s)
    /\ l ≡ₚ items (trainingRows s)
    /\ (shuffleOn s = false -> l = items (trainingRows s)).
Proof.
  unfold computeList. destruct (shuffleOn s) eqn:E.
  - pose proof (shuffle_perm (items (trainingRows s)) (rng s)) as Hp.
    destruct (shuffle _ _) as [l g']. exists l, g'. now repeat split.
  - exists (items (trainingRows s)), (rng s). now repeat split.
Qed.

(** X10.  An import that yields at least one entry replaces the rows, makes
    them the training list, empties the mistake list and resets index,
    score and streak; the working list holds the imported entries and the
    best streak is kept.  An import that yields no entry changes nothing in
    the version with toasts, and empties the lists in the other one. *)
Theorem import_cascade (m : Mode) (d : Direction) (best : nat) (sh : bool) (g : Rng)
    (es : list Event) (parsed : list Vocab) :
  (let s := Trainer.run es (Trainer.initial m d best sh g) in
   let s' := Trainer.step s (EvImport parsed) in
   if decide (parsed = []) then s' = s
   else items (rows s') = parsed /\ trainingRows s' = rows s'
        /\ items (wrongRows s') = [] /\ list_ s' ≡ₚ parsed
        /\ index s' = 0 /\ score s' = mkScore 0 0 /\ currentStreak s' = 0
        /\ qcmAnswered s' = false /\ bestStreak s' = bestStreak s)
  /\ (let s := LudyEnglish.run es (LudyEnglish.initial m d best sh g) in
      let s' := LudyEnglish.step s (EvImport parsed) in
      items (rows s') = parsed /\ trainingRows s' = rows s'
      /\ items (wrongRows s') = [] /\ list_ s' ≡ₚ parsed
      /\ index s' = 0 /\ score s' = mkScore 0 0 /\ currentStreak s' = 0
      /\ bestStreak s' = bestStreak s).
Proof.
  destruct (run_memo m d best sh g es) as [[HrT _] [HrL _]].
  split.
  - intros s s'. destruct (decide (parsed = [])) as [->|Hne].
    + apply render_same.
    + fold s in HrT. destruct HrT as (_ & Ht & _).
      unfold s', Trainer.step. cbn [Trainer.handle].
      destruct parsed as [|v parsed]; [congruence|]. cbn [length Nat.eqb].
      rewrite render_new_training by (simpl; lia).
      destruct (computeList_shape
        (rowsEffect (fun s'0 => setSelectedQcmOption None
                       (setQcmAnswered false (Trainer.hardResetProgress s'0)))
           (replaceRows (v :: parsed) s))) as (l & g' & -> & Hp & _).
      now repeat split.
  - intros s s'. fold s in HrL. destruct HrL as (_ & Ht & _).
    unfold s', LudyEnglish.step. cbn [LudyEnglish.handle].
    rewrite render_new_training by (simpl; lia).
    destruct (computeList_shape
      (rowsEffect LudyEnglish.hardResetProgress (replaceRows parsed s)))
      as (l & g' & -> & Hp & _).
    now repeat split.
Qed.

(** X11.  "Erreurs uniquement" does nothing while the mistake list is empty;
    otherwise the working list becomes the mistake list (reordered if
    shuffling is on) and the progress is reset, the mistake list, the rows
    and the best streak being kept.  "Session complète" does the same with
    the imported rows.  In both versions. *)
Theorem scope_switch (m : Mode) (d : Direction) (best : nat) (sh : bool) (g : Rng)
    (es : list Event) :
  (let s := Trainer.run es (Trainer.initial m d best sh g) in
   (if decide (items (wrongRows s) = []) then Trainer.step s EvWrongOnly = s
    else let s' := Trainer.step s EvWrongOnly in
         list_ s' ≡ₚ items (wrongRows s) /\ wrongRows s' = wrongRows s
         /\ rows s' = rows s /\ index s' = 0 /\ score s' = mkScore 0 0
         /\ currentStreak s' = 0 /\ bestStreak s' = bestStreak s)
   /\ (let s' := Trainer.step s EvFullSession in
       list_ s' ≡ₚ items (rows s) /\ wrongRows s' = wrongRows s
       /\ rows s' = rows s /\ index s' = 0 /\ score s' = mkScore 0 0
       /\ currentStreak s' = 0 /\ bestStreak s' = bestStreak s))
  /\ (let s := LudyEnglish.run es (LudyEnglish.initial m d best sh g) in
      (if decide (items (wrongRows s) = []) then LudyEnglish.step s EvWrongOnly = s
       else let s' := LudyEnglish.step s EvWrongOnly in
            list_ s' ≡ₚ items (wrongRows s) /\ wrongRows s' = wrongRows s
            /\ rows s' = rows s /\ index s' = 0 /\ score s' = mkScore 0 0
            /\ currentStreak s' = 0 /\ bestStreak s' = bestStreak s)
      /\ (let s' := LudyEnglish.step s EvFullSession in
          list_ s' ≡ₚ items (rows s) /\ wrongRows s' = wrongRows s
          /\ rows s' = rows s /\ index s' = 0 /\ score s' = mkScore 0 0
          /\ currentStreak s' = 0 /\ bestStreak s' = bestStreak s)).
Proof.
  destruct (run_memo m d best sh g es) as [[HrT HlT] [HrL HlL]].
  split.
  - intros s. fold s in HrT. destruct HrT as (Hr & Ht & Hw & Hrw & Htr & Htw).
    unfold Trainer.step. cbn [Trainer.handle]. split.
    + destruct (decide (items (wrongRows s) = [])) as [He|Hne].
      * rewrite He. apply render_same.
      * destruct (items (wrongRows s)) as [|w ws] eqn:E; [congruence|].
        cbn [length Nat.ltb Nat.leb]. cbv zeta. unfold render.
        destruct (_ && _) eqn:Hc.
        -- apply andb_prop in Hc as [Hc _]. apply bool_decide_eq_true in Hc.
           simpl in Hc. apply Htw in Hc. simpl.
           rewrite <- E, <- Hc. split; [apply HlT|now repeat split].
        -- destruct (computeList_shape
             (Trainer.hardResetProgress (setTrainingRows (wrongRows s) s)))
             as (l & g' & -> & Hp & _).
           simpl in *. rewrite E in Hp. now repeat split.
    + cbv zeta. unfold render. destruct (_ && _) eqn:Hc.
      * apply andb_prop in Hc as [Hc _]. apply bool_decide_eq_true in Hc.
        simpl in Hc. apply Htr in Hc. simpl.
        rewrite <- Hc. split; [apply HlT|now repeat split].
      * destruct (computeList_shape
          (Trainer.hardResetProgress (setTrainingRows (rows s) s)))
          as (l & g' & -> & Hp & _).
        simpl in *. now repeat split.
  - intros s. fold s in HrL. destruct HrL as (Hr & Ht & Hw & Hrw & Htr & Htw).
    unfold LudyEnglish.step. cbn [LudyEnglish.handle]. split.
    + destruct (decide (items (wrongRows s) = [])) as [He|Hne].
      * rewrite He. apply render_same.
      * destruct (items (wrongRows s)) as [|w ws] eqn:E; [congruence|].
        cbn [length Nat.ltb Nat.leb]. cbv zeta. unfold render.
        destruct (_ && _) eqn:Hc.
        -- apply andb_prop in Hc as [Hc _]. apply bool_decide_eq_true in Hc.
           simpl in Hc. apply Htw in Hc. simpl.
           rewrite <- E, <- Hc. split; [apply HlL|now repeat split].
        -- destruct (computeList_shape
             (LudyEnglish.hardResetProgress (setTrainingRows (wrongRows s) s)))
             as (l & g' & -> & Hp & _).
           simpl in *. rewrite E in Hp. now repeat split.
    + cbv zeta. unfold render. destruct (_ && _) eqn:Hc.
      * apply andb_prop in Hc as [Hc _]. apply bool_decide_eq_true in Hc.
        simpl in Hc. apply Htr in Hc. simpl.
        rewrite <- Hc. split; [apply HlL|now repeat split].
      * destruct (computeList_shape
          (LudyEnglish.hardResetProgress (setTrainingRows (rows s) s)))
          as (l & g' & -> & Hp & _).
        simpl in *. now repeat split.
Qed.

(** X12.  Changing the mode or the direction resets index, score, streak,
    the revealed answer and the typed text, and keeps the working list in
    the order it had (no new shuffle), the mistake list, the rows and the
    best streak.  In both versions. *)
Theorem settings_reset (s : State) (m : Mode) (d : Direction) :
  (forall s' : State,
      s' = Trainer.step s (EvSetMode m) \/ s' = Trainer.step s (EvSetDirection d)
      \/ s' = LudyEnglish.step s (EvSetMode m)
      \/ s' = LudyEnglish.step s (EvSetDirection d) ->
      index s' = 0 /\ score s' = mkScore 0 0 /\ currentStreak s' = 0
      /\ showBack s' = false /\ answer s' = ""
      /\ list_ s' = list_ s /\ wrongRows s' = wrongRows s /\ rows s' = rows s
      /\ trainingRows s' = trainingRows s /\ bestStreak s' = bestStreak s)
  /\ mode (Trainer.step s (EvSetMode m)) = m
  /\ mode (LudyEnglish.step s (EvSetMode m)) = m
  /\ direction (Trainer.step s (EvSetDirection d)) = d
  /\ direction (LudyEnglish.step s (EvSetDirection d)) = d.
Proof.
  unfold Trainer.step, LudyEnglish.step.
  cbn [Trainer.handle LudyEnglish.handle].
  rewrite !render_kept by reflexivity.
  split; [|now repeat split].
  intros s' [-> | [-> | [-> | ->]]]; now repeat split.
Qed.

(** ** More on the record normaliser *)










Section header_order.
Context {A B : Type} `{EqDecision B} (f : A -> B).



End header_order.



(** ** More on pickN and on the option set *)

Lemma omap_ext_elem {A B : Type} (f h : A -> option B) (l : list A) :
  (forall x, x ∈ l -> f x = h x) -> omap f l = omap h l.
Proof.
  induction l as [|x l IH]; intros Hext; [reflexivity|].
  cbn [omap list_omap]. rewrite (Hext x) by now left.
  fold (omap f l) (omap h l). rewrite IH; [reflexivity|].
  intros y Hy. apply Hext. now right.
Qed.

Lemma filter_ext_elem {A : Type} (P Q : A -> Prop)
    `{forall x, Decision (P x)} `{forall x, Decision (Q x)} (l : list A) :
  (forall x, x ∈ l -> P x <-> Q x) -> filter P l = filter Q l.
Proof.
  induction l as [|x l IH]; intros Hext; [reflexivity|].
  rewrite !filter_cons.
  assert (Hl : filter P l = filter Q l).
  { apply IH. intros y Hy. apply Hext. now right. }
  destruct (decide (P x)) as [Hp|Hp], (decide (Q x)) as [Hq|Hq];
    rewrite ?Hl; try reflexivity; exfalso;
    [apply Hq|apply Hp]; apply (Hext x); (now left) || assumption.
Qed.

(** Reading an array at all its indices but one. *)
Lemma omap_lookup_skip {T : Type} (arr : list T) (s k : nat) :
  omap (fun i => arr !! (i - s)) (filter (fun i => i ≠ s + k) (seq s (length arr)))
  = delete k arr.
Proof.
  revert s k. induction arr as [|a r IH]; intros s k; [now destruct k|].
  cbn [length seq]. rewrite filter_cons.
  assert (Hshift : forall k',
             omap (fun i => (a :: r) !! (i - s))
               (filter (fun i => i ≠ S s + k') (seq (S s) (length r)))
             = delete k' r).
  { intros k'. rewrite <- (IH (S s) k'). apply omap_ext_elem.
    intros i Hi. apply list_elem_of_filter in Hi as [_ Hi].
    apply elem_of_seq in Hi.
    replace (i - s) with (S (i - S s)) by lia. reflexivity. }
  destruct k as [|k].
  - destruct (decide (s ≠ s + 0)) as [Hne|_]; [lia|].
    cbn [delete list_delete].
    rewrite (filter_ext_elem _ (fun i => i ≠ S s + length r)).
    + rewrite Hshift. clear. induction r as [|b r IH]; [reflexivity|].
      cbn [length delete list_delete]. f_equal.
      change (list_delete (length r) r) with (delete (length r) r). exact IH.
    + intros i Hi. apply elem_of_seq in Hi. lia.
  - destruct (decide (s ≠ s + S k)) as [_|Heq]; [|lia].
    cbn [omap list_omap]. replace (s - s) with 0 by lia. cbn [lookup list_lookup].
    cbn [delete list_delete]. f_equal.
    etransitivity; [|apply (Hshift k)].
    f_equal. apply filter_ext_elem. intros i _. lia.
Qed.

Lemma delete_out_of_range {T : Type} (arr : list T) (k : nat) :
  length arr <= k -> delete k arr = arr.
Proof.
  intros Hk. rewrite delete_take_drop, take_ge, drop_ge by lia.
  apply app_nil_r.
Qed.

Lemma omap_candidates {T : Type} (arr : list T) (avoidIndex : option Z) :
  omap (fun i => arr !! i) (candidateIndices (length arr) avoidIndex)
  = withoutAvoided arr avoidIndex.
Proof.
  assert (Hk : forall k : nat,
             (forall i, i < length arr -> Some (Z.of_nat i) ≠ avoidIndex <-> i ≠ k) ->
             omap (fun i => arr !! i) (candidateIndices (length arr) avoidIndex)
             = delete k arr).
  { intros k Hiff. rewrite <- (omap_lookup_skip arr 0 k).
    unfold candidateIndices.
    rewrite (filter_ext_elem _ (fun i => i ≠ 0 + k)).
    - apply omap_ext_elem. intros i _. now rewrite Nat.sub_0_r.
    - intros i Hi. apply elem_of_seq in Hi. apply Hiff. lia. }
  unfold withoutAvoided. destruct avoidIndex as [z|].
  - case_bool_decide as Hz.
    + apply Hk. intros i Hi. split; [intros H -> | intros H [= Heq]]; apply H.
      * f_equal. lia.
      * lia.
    + rewrite (Hk (length arr)); [now apply delete_out_of_range|].
      intros i Hi. split; [lia|]. intros _ [= Heq]. lia.
  - rewrite (Hk (length arr)); [now apply delete_out_of_range|].
    intros i Hi. split; [lia|]. intros _ [=].
Qed.

(** X16.  Asked for at least as many elements as are eligible, [pickN]
    returns all of them: the pool without the element at the avoided index
    (the whole pool when nothing is avoided), in some order. *)
Theorem pickN_all_eligible {T : Type} (arr : list T) (n : Z) (avoidIndex : option Z)
    (g : Rng) :
  (Z.of_nat (eligible (length arr) avoidIndex) <= n)%Z ->
  (pickN arr n avoidIndex g).1 ≡ₚ withoutAvoided arr avoidIndex.
Proof.
  intros Hn. unfold pickN.
  set (cand := candidateIndices (length arr) avoidIndex).
  pose proof (fisherYates_perm (length cand - 1) cand g) as Hperm.
  destruct (fisherYates (length cand - 1) cand g) as [idxs' g']. simpl in *.
  assert (Hlen : length idxs' = eligible (length arr) avoidIndex).
  { rewrite (Permutation_length Hperm). apply candidateIndices_length. }
  rewrite slice0_nonneg by lia. rewrite take_ge by lia.
  rewrite Hperm. unfold cand. now rewrite omap_candidates.
Qed.

Lemma pickN_all_eligible_witness :
  (Z.of_nat (eligible (length ["a"; "b"; "c"]) (Some 1%Z)) <= 3)%Z
  /\ (pickN ["a"; "b"; "c"] 3 (Some 1%Z) (fun k => mkUnit01 k 1)).1 ≡ₚ ["a"; "c"].
Proof.
  assert (H : (Z.of_nat (eligible (length ["a"; "b"; "c"]) (Some 1%Z)) <= 3)%Z)
    by (vm_compute; intros Hgt; discriminate Hgt).
  split; [exact H|].
  exact (pickN_all_eligible ["a"; "b"; "c"] 3 (Some 1%Z) (fun k => mkUnit01 k 1) H).
Defined.

Lemma Forall2_lookup_NoDup {T : Type} (arr : list T) (idxs : list nat) (res : list T) :
  NoDup arr -> NoDup idxs ->
  Forall2 (fun i x => arr !! i = Some x) idxs res -> NoDup res.
Proof.
  intros Harr Hidx Hread. apply NoDup_alt. intros p q x Hp Hq.
  destruct (Forall2_lookup_r _ _ _ _ _ Hread Hp) as (i & Hi & Hix).
  destruct (Forall2_lookup_r _ _ _ _ _ Hread Hq) as (j & Hj & Hjx).
  assert (i = j) as -> by exact (NoDup_lookup arr i j x Harr Hix Hjx).
  exact (NoDup_lookup idxs p q j Hidx Hi Hj).
Qed.

(** X17.  From a pool without repeated values [pickN] returns values of the
    pool, no value twice, and never the value at the avoided index (the
    assertion of the self-test of the sources). *)
Theorem pickN_distinct_pool {T : Type} (arr : list T) (n : Z) (avoidIndex : option Z)
    (g : Rng) :
  NoDup arr ->
  NoDup (pickN arr n avoidIndex g).1
  /\ (pickN arr n avoidIndex g).1 ⊆ arr
  /\ (forall (k : nat) (x : T),
        avoidIndex = Some (Z.of_nat k) -> arr !! k = Some x ->
        x ∉ (pickN arr n avoidIndex g).1).
Proof.
  intros Hnd.
  destruct (pickN_indices arr n avoidIndex g) as (idxs & Hidx & Hin & Hread & _).
  split; [|split].
  - eapply Forall2_lookup_NoDup; eauto.
  - intros x Hx. apply list_elem_of_lookup in Hx as [p Hp].
    destruct (Forall2_lookup_r _ _ _ _ _ Hread Hp) as (i & _ & Hix).
    apply list_elem_of_lookup. eauto.
  - intros k x Hk Hkx Hx. apply list_elem_of_lookup in Hx as [p Hp].
    destruct (Forall2_lookup_r _ _ _ _ _ Hread Hp) as (i & Hi & Hix).
    assert (i = k) as -> by exact (NoDup_lookup arr i k x Hnd Hix Hkx).
    destruct (Hin k) as [_ Hne]; [apply list_elem_of_lookup; eauto|].
    now apply Hne.
Qed.

Ltac nodup_closed :=
  repeat (apply NoDup_cons_2;
          [intros Hm; repeat (apply elem_of_cons in Hm as [Hm|Hm]; [discriminate Hm|]);
           now apply elem_of_nil in Hm|]);
  apply NoDup_nil_2.

Lemma pickN_distinct_pool_witness :
  NoDup ["a"; "b"; "c"; "d"]
  /\ "b" ∉ (pickN ["a"; "b"; "c"; "d"] 3 (Some 1%Z) (fun k => mkUnit01 1 k)).1.
Proof.
  assert (H : NoDup ["a"; "b"; "c"; "d"]) by nodup_closed.
  split; [exact H|].
  exact (proj2 (proj2 (pickN_distinct_pool ["a"; "b"; "c"; "d"] 3 (Some 1%Z)
                         (fun k => mkUnit01 1 k) H)) 1 "b" eq_refl eq_refl).
Defined.

(** X18.  When the targets of the working list are pairwise distinct and the
    current entry belongs to the list, the options are pairwise distinct,
    each is the target of an entry of the list, and the correct answer is
    therefore one option exactly. *)
Theorem qcmOptions_distinct_targets (c : Vocab) (l : list Vocab) (d : Direction) (g : Rng) :
  NoDup (map (target d) l) -> c ∈ l ->
  NoDup (qcmOptions (Some c) l d g).1
  /\ target d c ∈ (qcmOptions (Some c) l d g).1
  /\ (forall o : string, o ∈ (qcmOptions (Some c) l d g).1 ->
        exists v : Vocab, v ∈ l /\ o = target d v).
Proof.
  intros Hnd Hc. unfold qcmOptions.
  destruct (length l =? 0) eqn:Hlen.
  { apply Nat.eqb_eq in Hlen. destruct l; [now apply elem_of_nil in Hc|discriminate]. }
  set (pool := map (target d) l) in *.
  assert (Hcp : target d c ∈ pool) by (unfold pool; now apply list_elem_of_fmap_2).
  destruct (indexOfFrom_elem (target d c) pool 0 Hcp) as (k & Hk & Hlook).
  fold (indexOf (target d c) pool) in Hk. simpl in Hk.
  destruct (pickN_indices pool 3 (Some (indexOf (target d c) pool)) g)
    as (idxs & Hidx & Hin & Hread & _).
  assert (Hdn : NoDup (pickN pool 3 (Some (indexOf (target d c) pool)) g).1)
    by (eapply Forall2_lookup_NoDup; eauto).
  assert (Hsub : forall x, x ∈ (pickN pool 3 (Some (indexOf (target d c) pool)) g).1 ->
                 x ∈ pool /\ x ≠ target d c).
  { intros x Hx. apply list_elem_of_lookup in Hx as [p Hp].
    destruct (Forall2_lookup_r _ _ _ _ _ Hread Hp) as (i & Hi & Hix).
    split; [apply list_elem_of_lookup; eauto|]. intros ->.
    assert (i = k) as -> by exact (NoDup_lookup pool i k _ Hnd Hix Hlook).
    destruct (Hin k) as [_ Hne]; [apply list_elem_of_lookup; eauto|].
    apply Hne. now rewrite Hk. }
  destruct (pickN pool 3 (Some (indexOf (target d c) pool)) g) as [dis g1].
  simpl in Hdn, Hsub.
  assert (Havoid : target d c ∉ dis) by (intros Hx; now apply Hsub in Hx).
  pose proof (shuffle_perm (target d c :: dis) g1) as Hperm.
  cbv beta iota. split; [|split].
  - rewrite Hperm. now apply NoDup_cons.
  - rewrite Hperm. now left.
  - intros o Ho. rewrite Hperm in Ho.
    assert (Hop : o ∈ pool).
    { apply elem_of_cons in Ho as [->|Ho]; [exact Hcp|now apply Hsub in Ho]. }
    unfold pool in Hop. apply list_elem_of_fmap in Hop as (v & -> & Hv). eauto.
Qed.

Lemma qcmOptions_distinct_targets_witness :
  (NoDup (map (target FR_EN) [mkVocab "cat" "chat" None; mkVocab "dog" "chien" None])
   /\ mkVocab "cat" "chat" None ∈ [mkVocab "cat" "chat" None; mkVocab "dog" "chien" None])
  /\ NoDup (qcmOptions (Some (mkVocab "cat" "chat" None))
              [mkVocab "cat" "chat" None; mkVocab "dog" "chien" None] FR_EN
              (fun k => mkUnit01 1 k)).1.
Proof.
  assert (H1 : NoDup (map (target FR_EN)
                        [mkVocab "cat" "chat" None; mkVocab "dog" "chien" None]))
    by (cbn [map target EN]; nodup_closed).
  assert (H2 : mkVocab "cat" "chat" None
               ∈ [mkVocab "cat" "chat" None; mkVocab "dog" "chien" None]) by now left.
  split; [split; assumption|].
  exact (proj1 (qcmOptions_distinct_targets _ _ FR_EN (fun k => mkUnit01 1 k) H1 H2)).
Defined.

(** ** Every order can come out of shuffle *)

(** A generator that answers [u] first and then goes on as [g]. *)
Lemma fisherYates_first_draw {T : Type} (i : nat) (b : list T) (u : Unit01) (g : Rng) :
  fisherYates (S i) b (fun k => match k with 0 => u | S k' => g k' end)
  = fisherYates i (swap (S i) (floorMul u (S i + 1)) b) g.
Proof. reflexivity. Qed.

Lemma swap_app_l {T : Type} (i j : nat) (pre suf : list T) :
  i < length pre -> j < length pre ->
  swap i j (pre ++ suf) = swap i j pre ++ suf.
Proof.
  intros Hi Hj. unfold swap. rewrite !lookup_app_l by assumption.
  destruct (pre !! i) as [x|]; [|reflexivity].
  destruct (pre !! j) as [y|]; [|reflexivity].
  rewrite insert_app_l by assumption.
  rewrite insert_app_l by (rewrite length_insert; assumption).
  reflexivity.
Qed.

(** The loop at counter [i] leaves everything beyond index [i] in place. *)
Lemma fisherYates_app {T : Type} (i : nat) (pre suf : list T) (g : Rng) :
  i < length pre ->
  (fisherYates i (pre ++ suf) g).1 = (fisherYates i pre g).1 ++ suf.
Proof.
  revert pre g. induction i as [|i IH]; intros pre g Hi; [reflexivity|].
  cbn [fisherYates random].
  pose proof (floorMul_lt (g 0) (S i + 1) ltac:(lia)) as Hj.
  rewrite swap_app_l by lia.
  apply IH. rewrite swap_length. lia.
Qed.

Lemma swap_lookup_l {T : Type} (i j : nat) (b : list T) (y : T) :
  i < length b -> b !! j = Some y -> swap i j b !! i = Some y.
Proof.
  intros Hi Hj. unfold swap.
  destruct (lookup_lt_is_Some_2 b i Hi) as [x Hx]. rewrite Hx, Hj.
  destruct (decide (i = j)) as [->|Hne].
  - rewrite list_lookup_insert_eq by (rewrite length_insert; lia). congruence.
  - rewrite list_lookup_insert_ne by congruence.
    now rewrite list_lookup_insert_eq.
Qed.

Lemma split_last_lookup {T : Type} (l : list T) (n : nat) (y : T) :
  length l = S n -> l !! n = Some y -> l = take n l ++ [y].
Proof.
  intros Hlen Hy. rewrite <- (take_drop_middle l n y Hy) at 1.
  now rewrite drop_ge by lia.
Qed.

Lemma fisherYates_reaches {T : Type} (n : nat) (xs ys : list T) :
  length xs = S n -> ys ≡ₚ xs -> exists g : Rng, (fisherYates n xs g).1 = ys.
Proof.
  revert xs ys. induction n as [|n IH]; intros xs ys Hlen Hperm.
  - exists (fun _ => mkUnit01 0 0). simpl.
    destruct xs as [|x [|? ?]]; try discriminate.
    now apply Permutation_singleton_r in Hperm.
  - destruct ys as [|y0 ys0] using rev_ind.
    { apply Permutation_nil_l in Hperm. subst. discriminate. }
    clear IHys0. rename y0 into y, ys0 into ys'.
    assert (Hy : y ∈ xs).
    { rewrite <- Hperm. apply elem_of_app. right. now left. }
    apply list_elem_of_lookup in Hy as [j Hj].
    pose proof (lookup_lt_Some _ _ _ Hj) as Hjlt.
    set (u := mkUnit01 j (S n + 1 - 1 - j)).
    assert (Hu : floorMul u (S n + 1) = j) by (apply floorMul_complete; lia).
    set (b1 := swap (S n) j xs).
    assert (Hb1 : b1 = take (S n) b1 ++ [y]).
    { apply split_last_lookup; [unfold b1; rewrite swap_length; lia|].
      apply swap_lookup_l; [lia|exact Hj]. }
    assert (Hpre : ys' ≡ₚ take (S n) b1).
    { apply (Permutation_app_inv_r [y]). rewrite <- Hb1.
      unfold b1. now rewrite swap_perm. }
    destruct (IH (take (S n) b1) ys') as [g' Hg'].
    { rewrite length_take. unfold b1. rewrite swap_length. lia. }
    { exact Hpre. }
    exists (fun k => match k with 0 => u | S k' => g' k' end).
    rewrite fisherYates_first_draw, Hu. fold b1. rewrite Hb1.
    rewrite fisherYates_app by (rewrite length_take; unfold b1; rewrite swap_length; lia).
    now rewrite Hg'.
Qed.

(** X19.  [shuffle] can return every ordering of its input: for each
    permutation of the input there are results of [Math.random] that make
    [shuffle] return it. *)
Theorem shuffle_reaches_every_permutation {T : Type} (xs ys : list T) :
  ys ≡ₚ xs -> exists g : Rng, (shuffle xs g).1 = ys.
Proof.
  intros Hperm. unfold shuffle. destruct xs as [|x xs].
  - exists (fun _ => mkUnit01 0 0). simpl. now apply Permutation_nil_r in Hperm.
  - cbn [length]. rewrite Nat.sub_0_r || replace (S (length xs) - 1) with (length xs) by lia.
    now apply fisherYates_reaches.
Qed.

Lemma shuffle_reaches_every_permutation_witness :
  ["c"; "a"; "b"] ≡ₚ ["a"; "b"; "c"]
  /\ exists g : Rng, (shuffle ["a"; "b"; "c"] g).1 = ["c"; "a"; "b"].
Proof.
  assert (H : ["c"; "a"; "b"] ≡ₚ ["a"; "b"; "c"]).
  { change (["c"] ++ ["a"; "b"] ≡ₚ ["a"; "b"] ++ ["c"]). apply Permutation_app_comm. }
  split; [exact H|]. exact (shuffle_reaches_every_permutation _ _ H).
Defined.

(** ** The key of the mistake list, away from underscores *)

Lemma append_underscore_inj (a b r1 r2 : string) :
  noUnderscore a = true -> noUnderscore b = true ->
  a +:+ String "_" r1 = b +:+ String "_" r2 -> a = b /\ r1 = r2.
Proof.
  revert b. induction a as [|c a IH]; intros b Ha Hb Heq.
  - destruct b as [|c' b].
    + change (String "_" r1 = String "_" r2) in Heq. now injection Heq as ->.
    + change (String "_" r1 = String c' (b +:+ String "_" r2)) in Heq.
      injection Heq as <- _. cbn [noUnderscore] in Hb.
      now rewrite bool_decide_eq_true_2 in Hb.
  - destruct b as [|c' b].
    + change (String c (a +:+ String "_" r1) = String "_" r2) in Heq.
      injection Heq as -> _. cbn [noUnderscore] in Ha.
      now rewrite bool_decide_eq_true_2 in Ha.
    + change (String c (a +:+ String "_" r1) = String c' (b +:+ String "_" r2)) in Heq.
      injection Heq as -> Heq. cbn [noUnderscore] in Ha, Hb.
      apply andb_prop in Ha as [_ Ha]. apply andb_prop in Hb as [_ Hb].
      destruct (IH b Ha Hb Heq) as [-> ->]. now split.
Qed.

Lemma key_inj_noUnderscore (v w : Vocab) :
  noUnderscore (EN v) = true -> noUnderscore (EN w) = true ->
  key v = key w -> EN v = EN w /\ FR v = FR w.
Proof.
  intros Hv Hw Hk. unfold key in Hk.
  change ("__" +:+ FR v) with (String "_" (String "_" (FR v))) in Hk.
  change ("__" +:+ FR w) with (String "_" (String "_" (FR w))) in Hk.
  destruct (append_underscore_inj _ _ _ _ Hv Hw Hk) as [He Hf].
  split; [exact He|]. now injection Hf.
Qed.

Lemma addWrong_elem (c v : Vocab) (s : State) :
  v ∈ items (wrongRows (addWrong c s)) -> v ∈ items (wrongRows s) \/ v = c.
Proof.
  unfold addWrong. destruct (existsb _ _); [now left|].
  simpl. intros Hv. apply elem_of_app in Hv as [Hv|Hv]; [now left|].
  right. now apply list_elem_of_singleton in Hv.
Qed.

(** X20.  While no EN field holds an underscore, the mistake list works on
    (EN, FR) pairs: after a submission that is not correct, the list holds an
    entry with the EN and the FR of the current entry.  In both versions. *)
Theorem wrongRows_pair_member (s : State) (c : Vocab) (verdict : option bool) :
  current s = Some c ->
  truthy verdict = false ->
  noUnderscore (EN c) = true ->
  (forall v, v ∈ items (wrongRows s) -> noUnderscore (EN v) = true) ->
  (exists v, v ∈ items (wrongRows (Trainer.nextCard verdict s))
             /\ EN v = EN c /\ FR v = FR c)
  /\ (exists v, v ∈ items (wrongRows (LudyEnglish.nextCard verdict s))
                /\ EN v = EN c /\ FR v = FR c).
Proof.
  intros Hcur Hv Hc Hall.
  destruct (addWrong_member_by_key c s) as (v & Hin & Hkey).
  assert (Hpair : EN v = EN c /\ FR v = FR c).
  { apply key_inj_noUnderscore; [|exact Hc|exact Hkey].
    destruct (addWrong_elem c v s Hin) as [Hold| ->]; auto. }
  split; exists v; (split; [|exact Hpair]).
  - now rewrite trainer_nextCard_wrongRows, Hcur, Hv.
  - now rewrite ludy_nextCard_wrongRows, Hcur, Hv.
Qed.

Lemma wrongRows_pair_member_witness :
  (current (set_list [mkVocab "cat" "chat" None]
              (useStateInit flashcards FR_EN 0 false (fun _ => mkUnit01 0 0)))
   = Some (mkVocab "cat" "chat" None)
   /\ truthy (Some false) = false
   /\ noUnderscore (EN (mkVocab "cat" "chat" None)) = true)
  /\ exists v,
       v ∈ items (wrongRows (Trainer.nextCard (Some false)
                    (set_list [mkVocab "cat" "chat" None]
                       (useStateInit flashcards FR_EN 0 false (fun _ => mkUnit01 0 0)))))
       /\ EN v = "cat" /\ FR v = "chat".
Proof.
  split; [now repeat split|].
  refine (proj1 (wrongRows_pair_member
                   (set_list [mkVocab "cat" "chat" None]
                      (useStateInit flashcards FR_EN 0 false (fun _ => mkUnit01 0 0)))
                   (mkVocab "cat" "chat" None) (Some false) eq_refl eq_refl eq_refl _)).
  intros v Hv. now apply elem_of_nil in Hv.
Defined.

(** ** The selection of stored files *)

(** X21.  Toggling an id flips its membership in the selection and leaves
    the other ids alone; a selection without repetition stays so; selecting
    an id and deselecting it again gives the selection back. *)
Theorem toggleSelectedCsv_flips (id : string) (prev : list string) :
  (id ∈ toggleSelectedCsv id prev <-> id ∉ prev)
  /\ (forall x : string, x ≠ id -> x ∈ toggleSelectedCsv id prev <-> x ∈ prev)
  /\ (NoDup prev -> NoDup (toggleSelectedCsv id prev))
  /\ (id ∉ prev -> toggleSelectedCsv id (toggleSelectedCsv id prev) = prev).
Proof.
  unfold toggleSelectedCsv. split; [|split; [|split]].
  - case_bool_decide as Hin.
    + rewrite list_elem_of_filter. tauto.
    + rewrite elem_of_app, list_elem_of_singleton. tauto.
  - intros x Hx. case_bool_decide as Hin.
    + rewrite list_elem_of_filter. tauto.
    + rewrite elem_of_app, list_elem_of_singleton. tauto.
  - intros Hnd. case_bool_decide as Hin.
    + now apply NoDup_filter.
    + apply NoDup_app. split; [exact Hnd|split; [|apply NoDup_singleton]].
      intros x Hx Hx'. apply list_elem_of_singleton in Hx'. now subst.
  - intros Hin. rewrite (bool_decide_eq_false_2 (id ∈ prev)) by exact Hin.
    rewrite bool_decide_eq_true_2 by (apply elem_of_app; right; now left).
    rewrite filter_app, (list.filter_singleton _ id []).
    destruct (decide (id ≠ id)) as [Hne|_]; [congruence|].
    rewrite app_nil_r. clear -Hin.
    induction prev as [|x prev IH]; [reflexivity|].
    rewrite filter_cons. apply not_elem_of_cons in Hin as [Hx Hin].
    destruct (decide (x ≠ id)) as [_|Heq]; [now rewrite IH|].
    exfalso. apply Heq. congruence.
Qed.

(** ** The Pomodoro timer *)

Lemma pomodoro_step_bound (p : Pomodoro) (e : PomodoroEvent) :
  timeLeft p <= phaseLength (phase p) ->
  timeLeft (pomodoroStep p e) <= phaseLength (phase (pomodoroStep p e)).
Proof.
  intros Hb. destruct e; cbn [pomodoroStep]; repeat case_match; simpl; try lia.
Qed.

(** X22.  After any sequence of ticks and button presses the time left is at
    most the length of the phase at hand; the clock therefore shows at most
    25 minutes, seconds below 60, and minutes and seconds together are the
    time left. *)
Theorem pomodoro_time_bounded (es : list PomodoroEvent) :
  let p := pomodoroRun es pomodoroInit in
  timeLeft p <= phaseLength (phase p)
  /\ minutes p <= 25 /\ seconds p < 60
  /\ minutes p * 60 + seconds p = timeLeft p.
Proof.
  intros p.
  assert (Hb : timeLeft p <= phaseLength (phase p)).
  { unfold p, pomodoroRun. generalize pomodoroInit
      (le_n (phaseLength (phase pomodoroInit)) : timeLeft pomodoroInit <= _).
    induction es as [|e es IH]; intros q Hq; [exact Hq|].
    apply IH, pomodoro_step_bound, Hq. }
  assert (Hmax : phaseLength (phase p) <= 1500).
  { destruct (phase p); unfold phaseLength, WORK, BREAK; lia. }
  unfold minutes, seconds.
  pose proof (Nat.div_mod_eq (timeLeft p) 60).
  pose proof (Nat.mod_upper_bound (timeLeft p) 60).
  repeat split; lia.
Qed.

Lemma pomodoro_ticks_down (k : nat) (p : Pomodoro) :
  running p = true -> k <= timeLeft p ->
  pomodoroRun (replicate k PTick) p = mkPomodoro (phase p) true (timeLeft p - k).
Proof.
  revert p. induction k as [|k IH]; intros [ph r t] Hr Hk; simpl in *; subst.
  - now rewrite Nat.sub_0_r.
  - unfold pomodoroRun in *. cbn [foldl pomodoroStep running timeLeft phase].
    destruct t as [|t]; [lia|]. cbn [Nat.ltb Nat.leb].
    rewrite IH by (simpl; lia). simpl. f_equal. lia.
Qed.

(** X23.  While the timer runs, a phase that starts with its full length
    ends after one tick more than its length in seconds: the tick that finds
    0 starts the other phase with its full length.  A paused timer ignores
    ticks. *)
Theorem pomodoro_phase_change (p : Pomodoro) :
  (running p = true -> timeLeft p = phaseLength (phase p) ->
   pomodoroRun (replicate (phaseLength (phase p)) PTick) p
   = mkPomodoro (phase p) true 0
   /\ pomodoroRun (replicate (phaseLength (phase p) + 1) PTick) p
      = mkPomodoro (otherPhase (phase p)) true (phaseLength (otherPhase (phase p))))
  /\ (running p = false -> forall k, pomodoroRun (replicate k PTick) p = p).
Proof.
  split.
  - intros Hr Ht.
    assert (H0 : pomodoroRun (replicate (phaseLength (phase p)) PTick) p
                 = mkPomodoro (phase p) true 0).
    { rewrite pomodoro_ticks_down by (assumption || lia). f_equal. lia. }
    split; [exact H0|].
    unfold pomodoroRun in *. rewrite replicate_add, foldl_app, H0. reflexivity.
  - intros Hr k. unfold pomodoroRun. induction k as [|k IH]; [reflexivity|].
    cbn [replicate foldl pomodoroStep]. now rewrite Hr.
Qed.

Lemma pomodoro_phase_change_witness :
  (running (mkPomodoro work true WORK) = true
   /\ timeLeft (mkPomodoro work true WORK) = phaseLength (phase (mkPomodoro work true WORK)))
  /\ pomodoroRun (replicate (WORK + 1) PTick) (mkPomodoro work true WORK)
     = mkPomodoro break true BREAK.
Proof.
  split; [now split|].
  exact (proj2 (proj1 (pomodoro_phase_change (mkPomodoro work true WORK))
                  eq_refl eq_refl)).
Defined.

(** ** The space bar *)



(** ** The remote best streak *)

(** X25.  A loaded best streak never touches score, streak or mistake list,
    and changes the best streak only to the stored number, only when that
    number is above the value captured by the effect.  If the captured value
    is the best streak at hand the result is the larger of the two and
    [currentStreak ≤ bestStreak] is kept; if the best streak has grown past
    the stored number since the capture, the load lowers it. *)
Theorem loadBestStreak_merge (captured : nat) (remote : option nat) (s : State) :
  (score (loadBestStreak captured remote s) = score s
   /\ currentStreak (loadBestStreak captured remote s) = currentStreak s
   /\ wrongRows (loadBestStreak captured remote s) = wrongRows s)
  /\ (captured = bestStreak s ->
      bestStreak (loadBestStreak captured remote s)
      = Nat.max (bestStreak s) (default 0 remote)
      /\ (scoringInvariant s -> scoringInvariant (loadBestStreak captured remote s)))
  /\ (forall r : nat, remote = Some r -> r <= captured ->
        loadBestStreak captured remote s = s)
  /\ (forall r : nat, remote = Some r -> captured < r -> r < bestStreak s ->
        bestStreak (loadBestStreak captured remote s) = r).
Proof.
  unfold loadBestStreak, scoringInvariant.
  split; [|split; [|split]].
  - destruct remote as [r|]; [destruct (captured <? r)|]; now repeat split.
  - intros ->. destruct remote as [r|]; simpl.
    + destruct (bestStreak s <? r) eqn:E; simpl.
      * apply Nat.ltb_lt in E. split; lia.
      * apply Nat.ltb_ge in E. split; [lia|tauto].
    + split; [lia|tauto].
  - intros r -> Hr. now rewrite (proj2 (Nat.ltb_ge captured r)).
  - intros r -> Hr _. now rewrite (proj2 (Nat.ltb_lt captured r)).
Qed.

(** ** Toasts *)

Lemma toast_ids_step (ts : Toasts) (e : ToastEvent) :
  NoDup (map t_id (shown ts))
  /\ (forall t, t ∈ shown ts -> t_id t < toastIdRef ts) ->
  NoDup (map t_id (shown (toastStep ts e)))
  /\ (forall t, t ∈ shown (toastStep ts e) -> t_id t < toastIdRef (toastStep ts e)).
Proof.
  intros [Hnd Hlt]. destruct e as [msg ty|id]; simpl.
  - split.
    + rewrite map_app. apply NoDup_app. split; [exact Hnd|split; [|apply NoDup_singleton]].
      intros k Hk Hk'. apply list_elem_of_singleton in Hk'. simpl in Hk'.
      apply list_elem_of_fmap in Hk as (t & -> & Ht). apply Hlt in Ht. lia.
    + intros t Ht. apply elem_of_app in Ht as [Ht|Ht].
      * apply Hlt in Ht. lia.
      * apply list_elem_of_singleton in Ht. subst. simpl. lia.
  - split.
    + clear Hlt. induction (shown ts) as [|t l IH]; [constructor|].
      cbn [map] in Hnd. apply NoDup_cons in Hnd as [Ht Hnd].
      rewrite filter_cons. destruct (decide (t_id t ≠ id)); [|auto].
      cbn [map]. apply NoDup_cons. split; [|auto].
      intros Hin. apply Ht. apply list_elem_of_fmap in Hin as (t' & -> & Ht').
      apply list_elem_of_filter in Ht' as [_ Ht'].
      now apply list_elem_of_fmap_2.
    + intros t Ht. apply list_elem_of_filter in Ht as [_ Ht]. auto.
Qed.

Lemma toast_ids_run (es : list ToastEvent) (ts : Toasts) :
  NoDup (map t_id (shown ts))
  /\ (forall t, t ∈ shown ts -> t_id t < toastIdRef ts) ->
  NoDup (map t_id (shown (foldl toastStep ts es)))
  /\ (forall t, t ∈ shown (foldl toastStep ts es)
        -> t_id t < toastIdRef (foldl toastStep ts es)).
Proof.
  revert ts. induction es as [|e es IH]; intros ts H; [exact H|].
  apply IH, toast_ids_step, H.
Qed.

Lemma filter_remove_unique (id : nat) (before after : list Toast) (t : Toast) :
  t_id t = id -> NoDup (map t_id (before ++ t :: after)) ->
  filter (fun t' => t_id t' ≠ id) (before ++ t :: after) = before ++ after.
Proof.
  intros Hid Hnd. rewrite map_app in Hnd. cbn [map] in Hnd.
  apply NoDup_app in Hnd as (_ & Hba & Ha).
  apply NoDup_cons in Ha as [Hta _].
  assert (Hkeep : forall l : list Toast, id ∉ map t_id l ->
                  filter (fun t' => t_id t' ≠ id) l = l).
  { induction l as [|x l IH]; intros Hx; [reflexivity|].
    cbn [map] in Hx. apply not_elem_of_cons in Hx as [Hx Hl].
    rewrite filter_cons. destruct (decide (t_id x ≠ id)) as [_|Hd]; [now rewrite IH|].
    exfalso. apply Hd. congruence. }
  rewrite filter_app, filter_cons.
  destruct (decide (t_id t ≠ id)) as [Hne|_]; [congruence|].
  rewrite !Hkeep; [reflexivity| |].
  - now rewrite <- Hid.
  - intros Hin. apply (Hba id Hin). rewrite <- Hid. now left.
Qed.

(** X26.  Toast ids are handed out once: after any sequence of toasts shown
    and dismissed, the toasts on screen have pairwise distinct ids, all of
    them below the next id, so that dismissing a toast that is shown removes
    that toast and no other, the rest staying in order. *)
Theorem toast_ids_unique (es : list ToastEvent) :
  let ts := foldl toastStep (mkToasts [] 0) es in
  NoDup (map t_id (shown ts))
  /\ (forall t, t ∈ shown ts -> t_id t < toastIdRef ts)
  /\ (forall (before after : list Toast) (t : Toast),
        shown ts = before ++ t :: after ->
        shown (dismissToast (t_id t) ts) = before ++ after).
Proof.
  intros ts.
  assert (H : NoDup (map t_id (shown ts))
              /\ (forall t, t ∈ shown ts -> t_id t < toastIdRef ts)).
  { unfold ts. apply toast_ids_run. split; [constructor|].
    intros t Ht. now apply elem_of_nil in Ht. }
  destruct H as [Hnd Hlt]. split; [exact Hnd|split; [exact Hlt|]].
  intros before after t Heq. unfold dismissToast. cbn [shown].
  rewrite Heq in Hnd |- *. now apply filter_remove_unique.
Qed.
